(** * Tic-tac-toe: the game state, its history and the win detector

    A shallow embedding of the two variants of the game:
    - the history-bearing [Game] component (state [history], [stepNumber],
      [xIsNext]; methods [handleClick] and [jumpTo]), and
    - the simple [Board] component of [src/index.js] (state [squares],
      [xIsNext]; method [handleClick]),
    together with the function [calculateWinner], which both files define
    with the same text, and with what the [render] methods compute: the rows
    of squares, the status line and the move list.

    JavaScript arrays are lists, read with stdpp's lookup and written with
    stdpp's insert; what JavaScript does outside the array bounds (a read
    gives [undefined], a write at an array index extends the array, a write
    at a larger number does not) is written out in [get] and [set].
    [setState] is taken to merge its argument into the state at once.
    Indices and step pointers are natural numbers, as all those are that
    the components produce themselves. *)

From stdpp Require Import base decidable option list strings pretty.

(** ** Values held by a square *)

(** The values a square can hold: [null] (from [Array(9).fill(null)]), the
    strings ['X'] and ['O'], and [undefined], which is what reading a missing
    element gives. *)
Inductive value : Set :=
| VNull
| VUndefined
| VX
| VO.

#[global] Instance value_eq_dec : EqDecision value.
Proof. solve_decision. Defined.

(** JavaScript truthiness: [null] and [undefined] are falsy, a non-empty
    string is truthy. *)
Definition truthy (v : value) : bool :=
  match v with
  | VX | VO => true
  | VNull | VUndefined => false
  end.

(** [squares[i]]: a read outside the array gives [undefined]. *)
Definition get (squares : list value) (i : nat) : value :=
  default VUndefined (squares !! i).

(** The array indices of JavaScript: the integers below [2^32 - 1]. *)
Definition array_index (i : nat) : Prop := (N.of_nat i < 4294967295)%N.

(** [squares[i] = v]: a write inside the array replaces the element; a write
    past its end, at an array index, extends the array, the elements in
    between being holes, which read as [undefined].  At a number that is not
    an array index the write makes a property and leaves the elements and
    the length alone; [slice()] does not copy it and nothing here reads it,
    every read being at one of 0 to 8 or on a copy made by [slice()]. *)
Definition set (squares : list value) (i : nat) (v : value) : list value :=
  if decide (i < length squares) then <[i := v]> squares
  else if decide (array_index i)
       then squares ++ replicate (i - length squares) VUndefined ++ [v]
       else squares.

(** ** calculateWinner *)

Definition line : Set := (nat * nat * nat)%type.

Definition lines : list line :=
  [ (0, 1, 2);
    (3, 4, 5);
    (6, 7, 8);
    (0, 3, 6);
    (1, 4, 7);
    (2, 5, 8);
    (0, 4, 8);
    (2, 4, 6) ].

(** The test of the loop body:
    [squares[a] && squares[a] === squares[b] && squares[a] === squares[c]]. *)
Definition line_test (squares : list value) (l : line) : bool :=
  let '(a, b, c) := l in
  truthy (get squares a)
  && bool_decide (get squares a = get squares b)
  && bool_decide (get squares a = get squares c).

(** The [for] loop over [lines], from the line at hand to the last one; it
    returns [squares[a]] at the first line that passes the test, and [null]
    when it runs off the end. *)
Fixpoint scan (squares : list value) (ls : list line) : value :=
  match ls with
  | [] => VNull
  | l :: rest =>
      if line_test squares l then get squares (l.1.1)
      else scan squares rest
  end.

Definition calculateWinner (squares : list value) : value :=
  scan squares lines.

(** A mark is one of the two players' strings. *)
Definition is_mark (v : value) : Prop := v = VX ∨ v = VO.

(** Line [l] is complete with [m]: its three cells hold the same mark [m]. *)
Definition complete (squares : list value) (l : line) (m : value) : Prop :=
  is_mark m
  ∧ squares !! (l.1.1) = Some m
  ∧ squares !! (l.1.2) = Some m
  ∧ squares !! (l.2) = Some m.

(** No mark completes line [l]. *)
Definition incomplete (squares : list value) (l : line) : Prop :=
  ∀ m, ¬ complete squares l m.

(** [k] is the first line of [ls] that some mark completes, and [m] is that
    mark. *)
Definition first_complete (squares : list value) (ls : list line) (k : nat) (m : value) : Prop :=
  ∃ l, ls !! k = Some l
       ∧ complete squares l m
       ∧ ∀ j l', j < k → ls !! j = Some l' → incomplete squares l'.

(** The number of squares that hold a mark. *)
Fixpoint occupied (squares : list value) : nat :=
  match squares with
  | [] => 0
  | v :: rest => (if truthy v then 1 else 0) + occupied rest
  end.

(** A board: nine cells, each [null], ['X'] or ['O']. *)
Definition board (squares : list value) : Prop :=
  length squares = 9 ∧ Forall (λ v, v = VNull ∨ v = VX ∨ v = VO) squares.

(** The snapshot has a winner, as [calculateWinner] sees it. *)
Definition winning (squares : list value) : Prop :=
  calculateWinner squares ≠ VNull.

(** Square [i] holds a mark. *)
Definition taken (squares : list value) (i : nat) : Prop :=
  ∃ m, is_mark m ∧ squares !! i = Some m.

(** Every square holds a mark. *)
Definition full (squares : list value) : Prop :=
  Forall is_mark squares.

(** ** The history-bearing variant: component [Game] *)

Inductive result (A : Type) : Type :=
| Ok (a : A)
| TypeError.
Arguments Ok {A} a.
Arguments TypeError {A}.

Module History.

(** An element of [history]: the object [{squares: ...}].  Each evaluation
    of that object literal makes a new object; [oid] is its identity, a
    number drawn from the allocation counter of the component. *)
Record entry : Set := Entry {
  oid : nat;
  squares : list value;
}.

(** [this.state] of [Game].  The step pointer is a natural number: the
    constructor stores 0, [handleClick] a length, and the move list hands
    [jumpTo] indices of [history]. *)
Record state : Set := State {
  history : list entry;
  stepNumber : nat;
  xIsNext : bool;
}.

(** The component: its state and the identity the next [{squares: ...}]
    object will get. *)
Record game : Set := Game {
  st : state;
  next_oid : nat;
}.

#[global] Instance entry_eq_dec : EqDecision entry.
Proof. solve_decision. Defined.

(** The constructor: one snapshot, [Array(9).fill(null)]. *)
Definition init : game :=
  {| st := {| history := [ {| oid := 0; squares := replicate 9 VNull |} ];
              stepNumber := 0;
              xIsNext := true |};
     next_oid := 1 |}.

(** [this.state.xIsNext ? 'X' : 'O'], the mark of the player to move (also
    the one the status line of [render] shows). *)
Definition activePlayer (s : state) : value :=
  if xIsNext s then VX else VO.

(** The guard of [handleClick]: [calculateWinner(squares) || squares[i]]. *)
Definition blocked (sq : list value) (i : nat) : bool :=
  truthy (calculateWinner sq) || truthy (get sq i).

(** [handleClick(i)].  [slice(0, stepNumber + 1)] is [take]; the element at
    [history.length - 1] is the last one, and it is [undefined] when the
    slice is empty, in which case reading its [squares] throws. *)
Definition handleClick (i : nat) (g : game) : result game :=
  let s := st g in
  let history' := take (stepNumber s + 1) (history s) in
  match last history' with
  | None => TypeError
  | Some current =>
      let sq := squares current in
      if blocked sq i then Ok g
      else
        let sq' := set sq i (activePlayer s) in
        Ok {| st := {| history := history' ++ [ {| oid := next_oid g; squares := sq' |} ];
                       stepNumber := length history';
                       xIsNext := negb (xIsNext s) |};
              next_oid := S (next_oid g) |}
  end.

(** [jumpTo(step)]: [setState] leaves [history] as it is.  [step] is an
    index of [history.map] in [render], a natural number.  This is the
    method alone; the [render] that follows it throws when [step] is not an
    index of [history] (see [View.render]). *)
Definition jumpTo (step : nat) (g : game) : game :=
  {| st := {| history := history (st g);
              stepNumber := step;
              xIsNext := Nat.eqb (step mod 2) 0 |};
     next_oid := next_oid g |}.

(** The snapshot [render] shows: [history[stepNumber]]. *)
Definition current (g : game) : option entry :=
  history (st g) !! stepNumber (st g).

(** A run of clicks with no jump in between; an exception ends it. *)
Fixpoint clicks (cs : list nat) (g : game) : result game :=
  match cs with
  | [] => Ok g
  | i :: rest =>
      match handleClick i g with
      | Ok g' => clicks rest g'
      | TypeError => TypeError
      end
  end.

(** The states the component can be in: the user clicks one of the nine
    squares [renderSquare(0)] .. [renderSquare(8)], or one of the buttons
    of the move list, which [render] makes from the indices of [history]. *)
Inductive reachable : game → Prop :=
| reachable_init : reachable init
| reachable_click i g g' :
    reachable g → i < 9 → handleClick i g = Ok g' → reachable g'
| reachable_jump step g :
    reachable g → step < length (history (st g)) → reachable (jumpTo step g).

(** The invariant of the reachable states. *)
Record wf (g : game) : Prop := Wf {
  wf_pointer : stepNumber (st g) < length (history (st g));
  wf_turn : xIsNext (st g) = Nat.even (stepNumber (st g));
  wf_boards : ∀ e, e ∈ history (st g) → board (squares e);
  wf_first : ∃ e, history (st g) !! 0 = Some e ∧ squares e = replicate 9 VNull;
  wf_grow : ∀ k e e',
    history (st g) !! k = Some e → history (st g) !! S k = Some e' →
    occupied (squares e') = S (occupied (squares e));
  wf_fresh : ∀ e, e ∈ history (st g) → oid e < next_oid g;
  wf_distinct : NoDup (oid <$> history (st g));
}.

End History.

(** ** The simple variant: component [Board] of [src/index.js] *)

Module Simple.

(** [this.state] of [Board]. *)
Record state : Set := State {
  squares : list value;
  xIsNext : bool;
}.

Definition init : state :=
  {| squares := replicate 9 VNull; xIsNext := true |}.

(** [handleClick(i)] of [Board]. *)
Definition handleClick (i : nat) (s : state) : state :=
  let sq := squares s in
  if truthy (calculateWinner sq) || truthy (get sq i) then s
  else
    {| squares := set sq i (if xIsNext s then VX else VO);
       xIsNext := negb (xIsNext s) |}.

(** A run of clicks. *)
Definition clicks (cs : list nat) (s : state) : state :=
  foldl (λ s i, handleClick i s) s cs.

End Simple.

(** ** The two variants side by side *)

(** The simulation between the two components while no jump is made: the
    pointer of [Game] is at the last snapshot, which holds the squares of
    [Board], and the turn flags agree. *)
Definition sim (g : History.game) (s : Simple.state) : Prop :=
  ∃ e, History.current g = Some e
       ∧ S (History.stepNumber (History.st g)) = length (History.history (History.st g))
       ∧ History.squares e = Simple.squares s
       ∧ History.xIsNext (History.st g) = Simple.xIsNext s.

(** ** Some games *)

Module Scenario.
Import History.

Definition empty : list value := replicate 9 VNull.

(** After X has played square 0. *)
Definition one_move : game :=
  {| st := {| history := [ Entry 0 empty;
                           Entry 1 [VX; VNull; VNull; VNull; VNull; VNull; VNull; VNull; VNull] ];
              stepNumber := 1;
              xIsNext := false |};
     next_oid := 2 |}.

(** After the moves 0, 1, 2. *)
Definition three_moves : game :=
  {| st := {| history := [ Entry 0 empty;
                           Entry 1 [VX; VNull; VNull; VNull; VNull; VNull; VNull; VNull; VNull];
                           Entry 2 [VX; VO; VNull; VNull; VNull; VNull; VNull; VNull; VNull];
                           Entry 3 [VX; VO; VX; VNull; VNull; VNull; VNull; VNull; VNull] ];
              stepNumber := 3;
              xIsNext := false |};
     next_oid := 4 |}.

(** After the moves 0, 4, 1, 3, 2: X has the top row. *)
Definition won : game :=
  {| st := {| history := [ Entry 0 empty;
                           Entry 1 [VX; VNull; VNull; VNull; VNull; VNull; VNull; VNull; VNull];
                           Entry 2 [VX; VNull; VNull; VNull; VO; VNull; VNull; VNull; VNull];
                           Entry 3 [VX; VX; VNull; VNull; VO; VNull; VNull; VNull; VNull];
                           Entry 4 [VX; VX; VNull; VO; VO; VNull; VNull; VNull; VNull];
                           Entry 5 [VX; VX; VX; VO; VO; VNull; VNull; VNull; VNull] ];
              stepNumber := 5;
              xIsNext := false |};
     next_oid := 6 |}.

(** The board after the moves 0, 1, 2, 4, 3, 5, 7, 6, 8: full, no winner. *)
Definition drawn_board : list value := [VX; VO; VX; VX; VO; VO; VO; VX; VX].

(** The game after these nine moves. *)
Definition drawn : game :=
  {| st := {| history := [ Entry 0 empty;
                           Entry 1 [VX; VNull; VNull; VNull; VNull; VNull; VNull; VNull; VNull];
                           Entry 2 [VX; VO; VNull; VNull; VNull; VNull; VNull; VNull; VNull];
                           Entry 3 [VX; VO; VX; VNull; VNull; VNull; VNull; VNull; VNull];
                           Entry 4 [VX; VO; VX; VNull; VO; VNull; VNull; VNull; VNull];
                           Entry 5 [VX; VO; VX; VX; VO; VNull; VNull; VNull; VNull];
                           Entry 6 [VX; VO; VX; VX; VO; VO; VNull; VNull; VNull];
                           Entry 7 [VX; VO; VX; VX; VO; VO; VNull; VX; VNull];
                           Entry 8 [VX; VO; VX; VX; VO; VO; VO; VX; VNull];
                           Entry 9 drawn_board ];
              stepNumber := 9;
              xIsNext := false |};
     next_oid := 10 |}.

End Scenario.

(** ** What the components render *)

(** The string of a value, as string concatenation makes it. *)
Definition to_string (v : value) : string :=
  match v with
  | VNull => "null"
  | VUndefined => "undefined"
  | VX => "X"
  | VO => "O"
  end.

(** The player who moves at step [k]: X at the even steps. *)
Definition mover (k : nat) : value :=
  if Nat.even k then VX else VO.

(** How many squares hold [m]. *)
Fixpoint count (m : value) (squares : list value) : nat :=
  match squares with
  | [] => 0
  | v :: rest => (if decide (v = m) then 1 else 0) + count m rest
  end.

(** [sq'] is [sq] after the move of step [k]: [sq] had no winner, and one of
    its nine squares, empty so far, got the mark of the mover. *)
Definition placed (k : nat) (sq sq' : list value) : Prop :=
  ¬ winning sq
  ∧ ∃ i, i < 9 ∧ sq !! i = Some VNull ∧ sq' = <[i := mover k]> sq.

(** Exchanging the two players. *)
Definition swap (v : value) : value :=
  match v with
  | VX => VO
  | VO => VX
  | VNull => VNull
  | VUndefined => VUndefined
  end.

(** A [<Square/>] element: the value it shows, and the index its [onClick]
    hands to [handleClick]. *)
Record square : Set := Square {
  value_shown : value;
  onClick : nat;
}.

(** [renderSquare(i)]. *)
Definition renderSquare (squares : list value) (i : nat) : square :=
  {| value_shown := get squares i; onClick := i |}.

(** The three [board-row]s of [Board.render]. *)
Definition rows (squares : list value) : list (list square) :=
  [ [ renderSquare squares 0; renderSquare squares 1; renderSquare squares 2 ];
    [ renderSquare squares 3; renderSquare squares 4; renderSquare squares 5 ];
    [ renderSquare squares 6; renderSquare squares 7; renderSquare squares 8 ] ].

(** What the user can do to [Game]: click a square, or a button of the move
    list. *)
Inductive event : Set :=
| Click (i : nat)
| Jump (step : nat).

Module View.
Import History.

(** An item of the move list: its [key], the step its button hands to
    [jumpTo], and its text. *)
Record move : Set := Move {
  key : nat;
  target : nat;
  desc : string;
}.

(** What [Game.render] returns: the rows of [<Board/>], the status line and
    the move list. *)
Record view : Set := Build {
  grid : list (list square);
  status : string;
  moves : list move;
}.

(** [Game.render()].  [history[stepNumber]] is [undefined] when the pointer
    is outside the history, and reading its [squares] throws. *)
Definition render (g : game) : result view :=
  let history := history (st g) in
  match history !! stepNumber (st g) with
  | None => TypeError
  | Some current =>
      let winner := calculateWinner (squares current) in
      let moves :=
        imap (λ move _,
                let desc := match move with
                            | S _ => "Go to move #" +:+ pretty move
                            | 0 => "Go to game start"
                            end in
                {| key := move; target := move; desc := desc |}) history in
      let status :=
        if truthy winner then "Winner " +:+ to_string winner
        else "Next player: " +:+ (if xIsNext (st g) then "X" else "O") in
      Ok {| grid := rows (squares current); status := status; moves := moves |}
  end.

(** The events the rendered elements can send. *)
Definition events (v : view) : list event :=
  (Click ∘ onClick <$> concat (grid v)) ++ (Jump ∘ target <$> moves v).

(** The handler of an event: [(i) => this.handleClick(i)] for a square,
    [() => this.jumpTo(move)] for a button of the move list. *)
Definition fire (ev : event) (g : game) : result game :=
  match ev with
  | Click i => handleClick i g
  | Jump step => Ok (jumpTo step g)
  end.

(** The states the user can bring the component to, through what it
    renders. *)
Inductive ui_reachable : game → Prop :=
| ui_init : ui_reachable init
| ui_event g v ev g' :
    ui_reachable g → render g = Ok v → ev ∈ events v → fire ev g = Ok g' →
    ui_reachable g'.

End View.

Module SimpleView.

(** What [Board.render] of [src/index.js] returns: the status line and the
    three rows. *)
Record view : Set := Build {
  status : string;
  grid : list (list square);
}.

(** [Board.render()] of [src/index.js]. *)
Definition render (s : Simple.state) : view :=
  let winner := calculateWinner (Simple.squares s) in
  let status :=
    if truthy winner then "Winner: " +:+ to_string winner
    else "Next player: " +:+ (if Simple.xIsNext s then "X" else "O") in
  {| status := status; grid := rows (Simple.squares s) |}.

End SimpleView.

(** * Properties of [calculateWinner] *)

Lemma get_truthy squares i :
  truthy (get squares i) = true → squares !! i = Some (get squares i) ∧ is_mark (get squares i).
Proof.
  unfold get, is_mark. destruct (squares !! i) as [v|]; simpl; [|done].
  destruct v; simpl; intros; try done; auto.
Qed.

Lemma line_test_complete squares l :
  line_test squares l = true ↔ ∃ m, complete squares l m.
Proof.
  destruct l as [[a b] c]. unfold line_test, complete. simpl. split.
  - rewrite !andb_true_iff, !bool_decide_eq_true.
    intros [[Ht Hb] Hc].
    destruct (get_truthy _ _ Ht) as [Ha Hm].
    assert (Htb : truthy (get squares b) = true) by congruence.
    assert (Htc : truthy (get squares c) = true) by congruence.
    apply get_truthy in Htb as [Hb' _]. apply get_truthy in Htc as [Hc' _].
    exists (get squares a). repeat split; congruence.
  - intros (m & Hm & Ha & Hb & Hc). unfold get. rewrite Ha, Hb, Hc. simpl.
    destruct Hm; subst; done.
Qed.

Lemma complete_get squares l m : complete squares l m → get squares (l.1.1) = m.
Proof. intros (_ & Ha & _). unfold get. by rewrite Ha. Qed.

Lemma line_test_incomplete squares l :
  line_test squares l = false ↔ incomplete squares l.
Proof.
  unfold incomplete. split.
  - intros Hf m Hm. assert (line_test squares l = true) by (apply line_test_complete; eauto).
    congruence.
  - intros Hn. destruct (line_test squares l) eqn:E; [|done].
    apply line_test_complete in E as [m Hm]. by destruct (Hn m).
Qed.

Lemma complete_inj squares l m m' :
  complete squares l m → complete squares l m' → m = m'.
Proof. intros (_ & Ha & _) (_ & Ha' & _). congruence. Qed.

Lemma first_complete_inj squares ls k k' m m' :
  first_complete squares ls k m → first_complete squares ls k' m' → k = k' ∧ m = m'.
Proof.
  intros (l & Hl & Hc & Hlt) (l' & Hl' & Hc' & Hlt').
  destruct (Nat.lt_trichotomy k k') as [H|[H|H]].
  - by destruct (Hlt' _ _ H Hl m).
  - subst k'. split; [done|]. assert (l = l') by congruence. subst.
    by eapply complete_inj.
  - by destruct (Hlt _ _ H Hl' m').
Qed.

Lemma scan_cases squares ls :
  (∃ k m, first_complete squares ls k m ∧ scan squares ls = m)
  ∨ ((∀ l, l ∈ ls → incomplete squares l) ∧ scan squares ls = VNull).
Proof.
  induction ls as [|l ls IH]; simpl.
  - right. split; [|done]. intros l Hl. by apply elem_of_nil in Hl.
  - destruct (line_test squares l) eqn:E.
    + left. apply line_test_complete in E as [m Hm].
      exists 0, m. split; [|by apply complete_get].
      exists l. split; [done|]. split; [done|]. intros j l' Hj. lia.
    + apply line_test_incomplete in E.
      destruct IH as [(k & m & (l0 & Hl0 & Hc & Hlt) & Hs)|[Hall Hs]].
      * left. exists (S k), m. split; [|done].
        exists l0. split; [done|]. split; [done|].
        intros [|j] l' Hj Hl'; simpl in Hl'; [by simplify_eq|].
        apply (Hlt j); [lia|done].
      * right. split; [|done]. intros l' Hl'.
        apply elem_of_cons in Hl' as [->|Hl']; auto.
Qed.

Lemma is_mark_not_null m : is_mark m → m ≠ VNull.
Proof. by intros [-> | ->]. Qed.

Lemma first_complete_elem squares ls k m :
  first_complete squares ls k m → ∃ l, l ∈ ls ∧ complete squares l m.
Proof.
  intros (l & Hl & Hc & _). exists l. split; [|done].
  apply list_elem_of_lookup. eauto.
Qed.

(** C1. [calculateWinner] goes through the eight lines in the order
    [0,1,2], [3,4,5], [6,7,8], [0,3,6], [1,4,7], [2,5,8], [0,4,8], [2,4,6]:
    it returns a mark [m] exactly when some line has its three cells equal to
    [m] and no line before it in that order is complete (so that, when several
    lines are complete, the first one decides), and it returns [null] exactly
    when no line is complete.  This holds for every array of squares, and so
    for every board of nine cells. *)
Theorem calculateWinner_first_line (squares : list value) :
  lines = [ (0, 1, 2); (3, 4, 5); (6, 7, 8); (0, 3, 6);
            (1, 4, 7); (2, 5, 8); (0, 4, 8); (2, 4, 6) ]
  ∧ (∀ m, is_mark m →
       (calculateWinner squares = m ↔ ∃ k, first_complete squares lines k m))
  ∧ (calculateWinner squares = VNull ↔ ∀ l, l ∈ lines → incomplete squares l)
  ∧ (calculateWinner squares = VNull ∨ is_mark (calculateWinner squares)).
Proof.
  unfold calculateWinner. split; [done|].
  destruct (scan_cases squares lines) as [(k & m & Hf & Hs)|[Hall Hs]].
  - assert (Hm : is_mark m) by (by destruct Hf as (? & _ & (? & _) & _)).
    repeat split.
    + intros Hs'. exists k. congruence.
    + intros [k' Hk']. destruct (first_complete_inj _ _ _ _ _ _ Hf Hk'). congruence.
    + intros Hnull. rewrite Hs in Hnull. by destruct (is_mark_not_null _ Hm).
    + intros Hall. apply first_complete_elem in Hf as (l & Hl & Hc).
      by destruct (Hall l Hl m).
    + right. by rewrite Hs.
  - repeat split; try done.
    + intros Hs'. rewrite Hs in Hs'. subst. by destruct (is_mark_not_null VNull).
    + intros [k Hk]. apply first_complete_elem in Hk as (l & Hl & Hc).
      by destruct (Hall l Hl m).
    + by left.
Qed.

(** With the top row and the middle row both complete, the top row, which
    comes first, decides. *)
Lemma calculateWinner_first_line_witness :
  is_mark VO
  ∧ (calculateWinner [VO; VO; VO; VX; VX; VX; VNull; VNull; VNull] = VO
     ↔ ∃ k, first_complete [VO; VO; VO; VX; VX; VX; VNull; VNull; VNull] lines k VO).
Proof.
  split; [right; reflexivity|].
  apply (calculateWinner_first_line [VO; VO; VO; VX; VX; VX; VNull; VNull; VNull]).
  right; reflexivity.
Defined.

(** * Reading and writing squares *)

Lemma set_in_range squares i v :
  i < length squares → set squares i v = <[i := v]> squares.
Proof. intros Hi. unfold set. by rewrite decide_True. Qed.

Lemma get_falsy_board squares i :
  board squares → i < 9 → truthy (get squares i) = false → squares !! i = Some VNull.
Proof.
  intros [Hlen Hall] Hi Hf.
  destruct (lookup_lt_is_Some_2 squares i) as [v Hv]; [lia|].
  rewrite Forall_lookup in Hall. specialize (Hall _ _ Hv).
  unfold get in Hf. rewrite Hv in Hf. simpl in Hf.
  destruct Hall as [->|[->| ->]]; done.
Qed.

Lemma occupied_insert squares i v m :
  squares !! i = Some v → truthy v = false → truthy m = true →
  occupied (<[i := m]> squares) = S (occupied squares).
Proof.
  revert i. induction squares as [|w rest IH]; intros [|i] Hv Hf Hm; simpl in *; try done.
  - simplify_eq. rewrite Hf, Hm. done.
  - rewrite (IH i); [lia|done..].
Qed.

Lemma occupied_replicate_null n : occupied (replicate n VNull) = 0.
Proof. induction n; simpl; done. Qed.

Lemma board_insert squares i m :
  board squares → is_mark m → board (<[i := m]> squares).
Proof.
  intros [Hlen Hall] Hm. split; [by rewrite length_insert|].
  apply Forall_insert; [done|]. destruct Hm; auto.
Qed.

Lemma board_empty : board (replicate 9 VNull).
Proof. split; [done|]. apply Forall_replicate. auto. Qed.

Lemma truthy_winner squares :
  truthy (calculateWinner squares) = true ↔ calculateWinner squares ≠ VNull.
Proof.
  destruct (scan_cases squares lines) as [(k & m & Hf & Hs)|[_ Hs]];
    unfold calculateWinner; rewrite Hs.
  - destruct Hf as (_ & _ & ([-> | ->] & _) & _); done.
  - done.
Qed.

(** * Properties of the history-bearing variant *)

Section game_properties.
Import History.

Lemma slice_last (h : list entry) p e :
  h !! p = Some e → last (take (p + 1) h) = Some e.
Proof.
  intros He. pose proof (lookup_lt_Some _ _ _ He) as Hp.
  rewrite last_lookup, length_take_le by lia.
  replace (pred (p + 1)) with p by lia.
  rewrite lookup_take_lt by lia. done.
Qed.

Lemma slice_length (h : list entry) p :
  p < length h → length (take (p + 1) h) = p + 1.
Proof. intros Hp. rewrite length_take_le; lia. Qed.

(** What [handleClick] does when the pointer is inside [history]. *)
Lemma handleClick_current i g e :
  current g = Some e →
  handleClick i g =
    if blocked (squares e) i then Ok g
    else Ok {| st := {| history := take (stepNumber (st g) + 1) (history (st g))
                                     ++ [ {| oid := next_oid g;
                                             squares := set (squares e) i (activePlayer (st g)) |} ];
                        stepNumber := stepNumber (st g) + 1;
                        xIsNext := negb (xIsNext (st g)) |};
               next_oid := S (next_oid g) |}.
Proof.
  unfold current, handleClick. intros He.
  rewrite (slice_last _ _ _ He).
  rewrite slice_length by (by eapply lookup_lt_Some). done.
Qed.

Lemma activePlayer_mark s : is_mark (activePlayer s).
Proof. unfold activePlayer, is_mark. destruct (xIsNext s); auto. Qed.

Lemma jumpTo_even step g : xIsNext (st (jumpTo step g)) = Nat.even step.
Proof.
  unfold jumpTo. cbn [st xIsNext].
  rewrite <- Nat.bit0_mod, Nat.bit0_odd, <- Nat.negb_even.
  by destruct (Nat.even step).
Qed.

(** ** The invariant *)

Lemma wf_init : wf init.
Proof.
  split; simpl; try done.
  - lia.
  - intros e He. apply list_elem_of_singleton in He as ->. apply board_empty.
  - eauto.
  - intros e He. apply list_elem_of_singleton in He as ->. simpl. lia.
  - apply NoDup_singleton.
Qed.

Lemma wf_current g : wf g → ∃ e, current g = Some e ∧ board (squares e).
Proof.
  intros Hwf. destruct (lookup_lt_is_Some_2 _ _ (wf_pointer _ Hwf)) as [e He].
  exists e. split; [done|]. eapply wf_boards; [done|]. by eapply list_elem_of_lookup_2.
Qed.

Lemma wf_jumpTo step g :
  wf g → step < length (history (st g)) → wf (jumpTo step g).
Proof.
  intros Hwf Hstep. split.
  - done.
  - apply jumpTo_even.
  - apply (wf_boards _ Hwf).
  - apply (wf_first _ Hwf).
  - apply (wf_grow _ Hwf).
  - apply (wf_fresh _ Hwf).
  - apply (wf_distinct _ Hwf).
Qed.

Lemma wf_handleClick i g g' :
  wf g → i < 9 → handleClick i g = Ok g' → wf g'.
Proof.
  intros Hwf Hi Hclick.
  destruct (wf_current _ Hwf) as (e & He & Hboard).
  rewrite (handleClick_current _ _ _ He) in Hclick.
  destruct (blocked (squares e) i) eqn:Hb; [by simplify_eq|].
  apply orb_false_iff in Hb as [_ Hfree].
  pose proof (get_falsy_board _ _ Hboard Hi Hfree) as Hnull.
  pose proof (wf_pointer _ Hwf) as Hp.
  pose proof (activePlayer_mark (st g)) as Hmark.
  rewrite set_in_range in Hclick by (destruct Hboard; lia).
  injection Hclick as <-.
  set (p := stepNumber (st g)) in *. set (h := history (st g)) in *.
  assert (Hlen : length (take (p + 1) h) = p + 1) by (by apply slice_length).
  split; cbn [st history stepNumber xIsNext next_oid].
  - rewrite length_app, Hlen. simpl. lia.
  - rewrite (wf_turn _ Hwf). fold p. replace (p + 1) with (S p) by lia.
    by rewrite Nat.even_succ, <- Nat.negb_even.
  - intros e' He'. apply elem_of_app in He' as [He'|He'].
    + apply elem_of_take in He' as (j & Hj & _).
      eapply wf_boards; [done|]. by eapply list_elem_of_lookup_2.
    + apply list_elem_of_singleton in He' as ->. by apply board_insert.
  - destruct (wf_first _ Hwf) as (e0 & He0 & Hsq). exists e0. split; [|done].
    rewrite lookup_app_l by lia. rewrite lookup_take_lt by lia. done.
  - intros k e1 e2 H1 H2.
    destruct (decide (S k < p + 1)) as [Hk|Hk].
    + rewrite lookup_app_l, lookup_take_lt in H1 by lia.
      rewrite lookup_app_l, lookup_take_lt in H2 by lia.
      by eapply wf_grow.
    + assert (k = p) as ->.
      { apply lookup_lt_Some in H2. rewrite length_app, Hlen in H2. simpl in H2. lia. }
      rewrite lookup_app_l, lookup_take_lt in H1 by lia.
      rewrite lookup_app_r, Hlen in H2 by lia.
      replace (S p - (p + 1)) with 0 in H2 by lia. simpl in H2.
      unfold current in He. fold p h in He. simplify_eq. simpl.
      eapply occupied_insert; [done|done|].
      by destruct Hmark as [-> | ->].
  - intros e' He'. apply elem_of_app in He' as [He'|He'].
    + apply elem_of_take in He' as (j & Hj & _).
      assert (oid e' < next_oid g); [|lia].
      eapply wf_fresh; [done|]. by eapply list_elem_of_lookup_2.
    + apply list_elem_of_singleton in He' as ->. simpl. lia.
  - rewrite fmap_app, fmap_take. simpl. apply NoDup_app. split; [|split].
    + eapply sublist_NoDup; [apply (wf_distinct _ Hwf)|apply sublist_take].
    + intros x Hx Hx'. apply list_elem_of_singleton in Hx'. subst x.
      apply elem_of_take in Hx as (j & Hj & _).
      apply list_lookup_fmap_Some_1 in Hj as (e' & Hoid & Hj).
      assert (oid e' < next_oid g); [|lia].
      eapply wf_fresh; [done|]. by eapply list_elem_of_lookup_2.
    + apply NoDup_singleton.
Qed.

Lemma reachable_wf g : reachable g → wf g.
Proof.
  induction 1 as [|i g g' _ IH Hi Hclick|step g _ IH Hstep].
  - apply wf_init.
  - by eapply wf_handleClick.
  - by apply wf_jumpTo.
Qed.

End game_properties.

(** * Moves *)

Section moves.
Import History.

Lemma taken_truthy squares i : taken squares i → truthy (get squares i) = true.
Proof. intros (m & Hm & Hi). unfold get. rewrite Hi. by destruct Hm as [-> | ->]. Qed.

Lemma blocked_true squares i :
  winning squares ∨ taken squares i → blocked squares i = true.
Proof.
  unfold blocked. intros [Hw|Ht]; apply orb_true_iff.
  - left. by apply truthy_winner.
  - right. by apply taken_truthy.
Qed.

Lemma blocked_false squares i :
  ¬ winning squares → squares !! i = Some VNull → blocked squares i = false.
Proof.
  unfold blocked, winning. intros Hw Hi. apply orb_false_iff. split.
  - destruct (truthy (calculateWinner squares)) eqn:E; [|done].
    apply truthy_winner in E. done.
  - unfold get. by rewrite Hi.
Qed.

(** C2. When the snapshot at the current pointer has a winner, or the
    clicked square holds a mark, [handleClick] returns without an exception
    and leaves the component as it was: same history, same step pointer,
    same turn flag. *)
Theorem handleClick_rejected_noop (i : nat) (g : game) (e : entry) :
  current g = Some e →
  winning (squares e) ∨ taken (squares e) i →
  handleClick i g = Ok g.
Proof.
  intros He Hguard. rewrite (handleClick_current _ _ _ He).
  by rewrite blocked_true.
Qed.

Lemma handleClick_rejected_noop_witness :
  current Scenario.one_move
    = Some (Entry 1 [VX; VNull; VNull; VNull; VNull; VNull; VNull; VNull; VNull])
  ∧ taken [VX; VNull; VNull; VNull; VNull; VNull; VNull; VNull; VNull] 0
  ∧ handleClick 0 Scenario.one_move = Ok Scenario.one_move.
Proof.
  assert (Ht : taken [VX; VNull; VNull; VNull; VNull; VNull; VNull; VNull; VNull] 0).
  { exists VX. split; [by left | reflexivity]. }
  split; [reflexivity|]. split; [exact Ht|].
  apply (handleClick_rejected_noop 0 Scenario.one_move
           (Entry 1 [VX; VNull; VNull; VNull; VNull; VNull; VNull; VNull; VNull])).
  - reflexivity.
  - right. exact Ht.
Defined.

(** C3. When the snapshot at the current pointer has no winner and the
    clicked square is inside the board and empty, [handleClick] gives the
    state whose history is the first [stepNumber + 1] snapshots followed by
    a new one, the copy of the current snapshot with the mark of the player
    to move at the clicked square, X when [xIsNext] holds and O otherwise;
    the pointer moves on by one and the turn flag flips.  When the turn flag
    agrees with the parity of the pointer, as it does in every reachable
    state, that mark is X at an even pointer and O at an odd one. *)
Theorem handleClick_accepted (i : nat) (g : game) (e : entry) :
  current g = Some e →
  ¬ winning (squares e) →
  squares e !! i = Some VNull →
  handleClick i g =
    Ok {| st := {| history := take (stepNumber (st g) + 1) (history (st g))
                                ++ [ {| oid := next_oid g;
                                        squares := <[i := if xIsNext (st g) then VX else VO]>
                                                     (squares e) |} ];
                   stepNumber := stepNumber (st g) + 1;
                   xIsNext := negb (xIsNext (st g)) |};
          next_oid := S (next_oid g) |}
  ∧ (xIsNext (st g) = Nat.even (stepNumber (st g)) →
     handleClick i g =
       Ok {| st := {| history := take (stepNumber (st g) + 1) (history (st g))
                                   ++ [ {| oid := next_oid g;
                                           squares := <[i := if Nat.even (stepNumber (st g))
                                                             then VX else VO]>
                                                        (squares e) |} ];
                      stepNumber := stepNumber (st g) + 1;
                      xIsNext := Nat.odd (stepNumber (st g)) |};
             next_oid := S (next_oid g) |}).
Proof.
  intros He Hw Hi.
  assert (Hclick : handleClick i g =
    Ok {| st := {| history := take (stepNumber (st g) + 1) (history (st g))
                                ++ [ {| oid := next_oid g;
                                        squares := <[i := if xIsNext (st g) then VX else VO]>
                                                     (squares e) |} ];
                   stepNumber := stepNumber (st g) + 1;
                   xIsNext := negb (xIsNext (st g)) |};
          next_oid := S (next_oid g) |}).
  { rewrite (handleClick_current _ _ _ He).
    rewrite blocked_false by done.
    rewrite set_in_range by (by eapply lookup_lt_Some). done. }
  split; [done|].
  intros Ht. rewrite Hclick, Ht, Nat.negb_even. done.
Qed.

Lemma handleClick_accepted_witness :
  handleClick 4 (jumpTo 1 Scenario.three_moves)
  = Ok {| st := {| history := [ Entry 0 Scenario.empty;
                                Entry 1 [VX; VNull; VNull; VNull; VNull; VNull; VNull; VNull; VNull];
                                Entry 4 [VX; VNull; VNull; VNull; VO; VNull; VNull; VNull; VNull] ];
                   stepNumber := 2;
                   xIsNext := true |};
          next_oid := 5 |}.
Proof.
  destruct (handleClick_accepted 4 (jumpTo 1 Scenario.three_moves)
              (Entry 1 [VX; VNull; VNull; VNull; VNull; VNull; VNull; VNull; VNull]))
    as [_ Hparity].
  - reflexivity.
  - unfold winning. intros H. apply H. reflexivity.
  - reflexivity.
  - apply Hparity. reflexivity.
Defined.

(** C7. [jumpTo(step)] sets the step pointer to [step] and leaves the
    history as it is: the same snapshots, in the same order, none added and
    none removed; the snapshot shown afterwards is the one the history held
    at [step]. *)
Theorem jumpTo_frame (step : nat) (g : game) :
  stepNumber (st (jumpTo step g)) = step
  ∧ history (st (jumpTo step g)) = history (st g)
  ∧ current (jumpTo step g) = history (st g) !! step.
Proof. done. Qed.

(** C8. A finished game stays finished: when the current snapshot has a
    winner, or is a board of nine squares that all hold a mark, a click on
    any of the squares 0 to 8 leaves the component as it was. *)
Theorem finished_absorbing (i : nat) (g : game) (e : entry) :
  current g = Some e →
  i < 9 →
  winning (squares e)
    ∨ (length (squares e) = 9 ∧ full (squares e) ∧ ¬ winning (squares e)) →
  handleClick i g = Ok g.
Proof.
  intros He Hi Hfin. rewrite (handleClick_current _ _ _ He).
  rewrite blocked_true; [done|].
  destruct Hfin as [Hw|(Hlen & Hfull & _)]; [by left|right].
  destruct (lookup_lt_is_Some_2 (squares e) i) as [m Hm]; [lia|].
  exists m. split; [|done].
  unfold full in Hfull. rewrite Forall_lookup in Hfull. by eapply Hfull.
Qed.

Lemma finished_absorbing_witness :
  handleClick 5 Scenario.won = Ok Scenario.won
  ∧ handleClick 6 Scenario.drawn = Ok Scenario.drawn.
Proof.
  split.
  - apply (finished_absorbing 5 Scenario.won
             (Entry 5 [VX; VX; VX; VO; VO; VNull; VNull; VNull; VNull])).
    + reflexivity.
    + lia.
    + left. unfold winning. simpl. discriminate.
  - apply (finished_absorbing 6 Scenario.drawn (Entry 9 Scenario.drawn_board)).
    + reflexivity.
    + lia.
    + right. split; [reflexivity|]. split.
      * unfold full, Scenario.drawn_board, is_mark.
        repeat (apply Forall_cons_2; [first [by left | by right]|]).
        apply Forall_nil_2.
      * unfold winning. intros H. apply H. reflexivity.
Defined.

End moves.

(** * Reachable states *)

Section reachable_states.
Import History.

Lemma reachable_clicks cs g g' :
  reachable g → Forall (λ i, i < 9) cs → clicks cs g = Ok g' → reachable g'.
Proof.
  revert g. induction cs as [|i cs IH]; intros g Hr Hcs Hrun; simpl in Hrun.
  - by simplify_eq.
  - apply Forall_cons in Hcs as [Hi Hcs].
    destruct (handleClick i g) as [g1|] eqn:E; [|done].
    apply (IH g1); [|done..]. by eapply reachable_click.
Qed.

(** The scenarios are games that can be played. *)
Lemma scenario_one_move : clicks [0] init = Ok Scenario.one_move.
Proof. reflexivity. Qed.

Lemma scenario_three_moves : clicks [0; 1; 2] init = Ok Scenario.three_moves.
Proof. reflexivity. Qed.

Lemma scenario_won :
  clicks [0; 4; 1; 3; 2] init = Ok Scenario.won
  ∧ (current Scenario.won ≫= λ e, Some (calculateWinner (squares e))) = Some VX.
Proof. split; reflexivity. Qed.

Lemma scenario_drawn :
  clicks [0; 1; 2; 4; 3; 5; 7; 6; 8] init = Ok Scenario.drawn
  ∧ calculateWinner Scenario.drawn_board = VNull.
Proof. split; reflexivity. Qed.

Lemma reachable_three_moves : reachable Scenario.three_moves.
Proof.
  apply (reachable_clicks [0; 1; 2] init); [apply reachable_init| |reflexivity].
  repeat constructor.
Defined.

Lemma turn_handleClick i g g' :
  stepNumber (st g) < length (history (st g)) →
  xIsNext (st g) = Nat.even (stepNumber (st g)) →
  handleClick i g = Ok g' →
  xIsNext (st g') = Nat.even (stepNumber (st g')).
Proof.
  intros Hp Ht Hclick.
  destruct (lookup_lt_is_Some_2 _ _ Hp) as [e He].
  rewrite (handleClick_current _ _ e He) in Hclick.
  destruct (blocked (squares e) i); injection Hclick as <-; [done|].
  cbn [st stepNumber xIsNext]. rewrite Ht.
  replace (stepNumber (st g) + 1) with (S (stepNumber (st g))) by lia.
  by rewrite Nat.even_succ, <- Nat.negb_even.
Qed.

(** C5. In every reachable state the turn flag agrees with the parity of
    the step pointer: the player to move is X exactly when [stepNumber] is
    even.  The constructor sets this up ([reachable] starts from [init]), and
    from a reachable state every [jumpTo] and every [handleClick] gives a
    state where it holds again. *)
Theorem turn_follows_parity (g : game) :
  reachable g →
  xIsNext (st g) = Nat.even (stepNumber (st g))
  ∧ (activePlayer (st g) = VX ↔ Nat.Even (stepNumber (st g)))
  ∧ (∀ step, xIsNext (st (jumpTo step g)) = Nat.even (stepNumber (st (jumpTo step g))))
  ∧ (∀ i g', handleClick i g = Ok g' →
             xIsNext (st g') = Nat.even (stepNumber (st g'))).
Proof.
  intros Hr. pose proof (reachable_wf _ Hr) as Hwf.
  pose proof (wf_turn _ Hwf) as Ht.
  split; [done|]. split; [|split].
  - unfold activePlayer. rewrite Ht, <- Nat.even_spec.
    by destruct (Nat.even (stepNumber (st g))).
  - intros step. apply jumpTo_even.
  - intros i g'. apply turn_handleClick; [apply (wf_pointer _ Hwf)|done].
Qed.

Lemma turn_follows_parity_witness :
  xIsNext (st (jumpTo 2 Scenario.three_moves)) = Nat.even 2
  ∧ (activePlayer (st (jumpTo 2 Scenario.three_moves)) = VX ↔ Nat.Even 2).
Proof.
  destruct (turn_follows_parity (jumpTo 2 Scenario.three_moves)) as (Hflag & Hplayer & _).
  - apply reachable_jump; [apply reachable_three_moves|simpl; lia].
  - split; [exact Hflag|exact Hplayer].
Defined.

(** C6. In every reachable state the first snapshot of the history is the
    empty board, and every later snapshot has exactly one more square
    holding a mark than the snapshot before it. *)
Theorem history_grows_by_one (g : game) :
  reachable g →
  (∃ e0, history (st g) !! 0 = Some e0 ∧ squares e0 = replicate 9 VNull)
  ∧ ∀ k e e', 1 ≤ k →
      history (st g) !! (k - 1) = Some e → history (st g) !! k = Some e' →
      occupied (squares e') = occupied (squares e) + 1.
Proof.
  intros Hr. pose proof (reachable_wf _ Hr) as Hwf. split.
  - apply (wf_first _ Hwf).
  - intros [|k] e e' Hk He He'; [lia|].
    replace (S k - 1) with k in He by lia.
    rewrite (wf_grow _ Hwf _ _ _ He He'). lia.
Qed.

Lemma history_grows_by_one_witness :
  (∃ e0, history (st Scenario.three_moves) !! 0 = Some e0
         ∧ squares e0 = replicate 9 VNull)
  ∧ ∀ k e e', 1 ≤ k →
      history (st Scenario.three_moves) !! (k - 1) = Some e →
      history (st Scenario.three_moves) !! k = Some e' →
      occupied (squares e') = occupied (squares e) + 1.
Proof.
  apply (history_grows_by_one Scenario.three_moves).
  apply reachable_three_moves.
Defined.

(** C10. In every reachable state the history is not empty, the step
    pointer is an index of the history, and every snapshot of the history
    is a board: nine squares, each [null], ['X'] or ['O']. *)
Theorem reachable_well_formed (g : game) :
  reachable g →
  history (st g) ≠ []
  ∧ stepNumber (st g) < length (history (st g))
  ∧ ∀ e, e ∈ history (st g) → board (squares e).
Proof.
  intros Hr. pose proof (reachable_wf _ Hr) as Hwf.
  pose proof (wf_pointer _ Hwf) as Hp. split; [|split].
  - intros Hnil. rewrite Hnil in Hp. simpl in Hp. lia.
  - done.
  - apply (wf_boards _ Hwf).
Qed.

Lemma reachable_well_formed_witness :
  history (st Scenario.three_moves) ≠ []
  ∧ stepNumber (st Scenario.three_moves) < length (history (st Scenario.three_moves))
  ∧ ∀ e, e ∈ history (st Scenario.three_moves) → board (squares e).
Proof.
  apply (reachable_well_formed Scenario.three_moves).
  apply reachable_three_moves.
Defined.

End reachable_states.

(** * Going back and branching *)

Section branching.
Import History.

Lemma blocked_false_iff squares i :
  blocked squares i = false ↔ ¬ winning squares ∧ ¬ taken squares i.
Proof.
  split.
  - intros Hb. split; intros H.
    + rewrite blocked_true in Hb by (by left). done.
    + rewrite blocked_true in Hb by (by right). done.
  - intros [Hw Ht]. unfold blocked. apply orb_false_iff. split.
    + destruct (truthy (calculateWinner squares)) eqn:E; [|done].
      apply truthy_winner in E. done.
    + destruct (truthy (get squares i)) eqn:E; [|done].
      destruct Ht. destruct (get_truthy _ _ E) as [Hl Hm]. by eexists.
Qed.

(** C4. From a reachable state, jumping to a step [k] of the history and
    then making a move that is accepted gives a history of [k + 2]
    snapshots: the first [k + 1] are the ones it had, and none of the
    snapshots it had after index [k] is in it any more (the last place holds
    the object the move has just made). *)
Theorem jump_then_move_truncates (i k : nat) (g : game) (e : entry) :
  reachable g →
  history (st g) !! k = Some e →
  ¬ winning (squares e) →
  ¬ taken (squares e) i →
  ∃ g', handleClick i (jumpTo k g) = Ok g'
        ∧ length (history (st g')) = k + 2
        ∧ take (k + 1) (history (st g')) = take (k + 1) (history (st g))
        ∧ ∀ j e', k < j → history (st g) !! j = Some e' → e' ∉ history (st g').
Proof.
  intros Hr He Hw Ht. pose proof (reachable_wf _ Hr) as Hwf.
  pose proof (lookup_lt_Some _ _ _ He) as Hk.
  assert (Hcur : current (jumpTo k g) = Some e) by done.
  rewrite (handleClick_current _ _ _ Hcur).
  replace (blocked (squares e) i) with false
    by (symmetry; by apply blocked_false_iff).
  eexists. split; [done|]. cbn [st history stepNumber jumpTo].
  assert (Hlen : length (take (k + 1) (history (st g))) = k + 1)
    by (by apply slice_length).
  split; [|split].
  - rewrite length_app, Hlen. simpl. lia.
  - rewrite take_app_length' by done. done.
  - intros j e' Hj He' Hin. apply elem_of_app in Hin as [Hin|Hin].
    + apply elem_of_take in Hin as (j' & Hj' & Hlt).
      assert (j' = j); [|lia].
      apply (NoDup_lookup _ _ _ (oid e') (wf_distinct _ Hwf));
        rewrite list_lookup_fmap; [by rewrite Hj'|by rewrite He'].
    + apply list_elem_of_singleton in Hin.
      assert (oid e' < next_oid g).
      { eapply wf_fresh; [done|]. by eapply list_elem_of_lookup_2. }
      rewrite Hin in H. simpl in H. lia.
Qed.

Lemma jump_then_move_truncates_witness :
  ∃ g', handleClick 4 (jumpTo 1 Scenario.three_moves) = Ok g'
        ∧ length (history (st g')) = 1 + 2
        ∧ take (1 + 1) (history (st g')) = take (1 + 1) (history (st Scenario.three_moves))
        ∧ ∀ j e', 1 < j → history (st Scenario.three_moves) !! j = Some e' →
                  e' ∉ history (st g').
Proof.
  apply (jump_then_move_truncates 4 1 Scenario.three_moves
           (Entry 1 [VX; VNull; VNull; VNull; VNull; VNull; VNull; VNull; VNull])).
  - apply reachable_three_moves.
  - reflexivity.
  - unfold winning. intros H. apply H. reflexivity.
  - intros (m & Hm & Hl). simpl in Hl. injection Hl as <-.
    destruct Hm; discriminate.
Defined.

(** Playing again the move that was undone gives a snapshot with the same
    squares as the one that was dropped, in a new object. *)
Example replay_same_squares :
  handleClick 0 (jumpTo 0 Scenario.one_move)
  = Ok {| st := {| history := [ Entry 0 Scenario.empty;
                                Entry 2 [VX; VNull; VNull; VNull; VNull; VNull; VNull; VNull; VNull] ];
                   stepNumber := 1;
                   xIsNext := false |};
          next_oid := 3 |}.
Proof. reflexivity. Qed.

End branching.

(** * The two variants *)

Section variants.

Lemma sim_init : sim History.init Simple.init.
Proof. eexists. repeat split. Qed.

Lemma sim_handleClick i g s :
  sim g s →
  ∃ g', History.handleClick i g = Ok g' ∧ sim g' (Simple.handleClick i s).
Proof.
  intros (e & He & Hlast & Hsq & Hturn).
  rewrite (handleClick_current _ _ _ He).
  unfold Simple.handleClick, History.blocked. rewrite <- Hsq.
  destruct (truthy (calculateWinner (History.squares e)) || truthy (get (History.squares e) i)).
  - eexists. split; [done|]. by exists e.
  - eexists. split; [done|].
    eexists. unfold History.current. cbn.
    rewrite take_ge by lia. split; [|split; [|split]].
    + rewrite lookup_app_r by lia.
      replace (_ - _) with 0 by lia. done.
    + rewrite length_app. simpl. lia.
    + simpl. unfold History.activePlayer. by rewrite Hturn.
    + by rewrite Hturn.
Qed.

Lemma sim_clicks cs g s :
  sim g s →
  ∃ g', History.clicks cs g = Ok g' ∧ sim g' (Simple.clicks cs s).
Proof.
  revert g s. induction cs as [|i cs IH]; intros g s Hsim; simpl.
  - by exists g.
  - destruct (sim_handleClick i _ _ Hsim) as (g1 & -> & Hsim1).
    by apply IH.
Qed.

(** C9. The history-bearing variant refines the simple one: after the same
    clicks, with no jump in between, each from its initial state, [Game]
    has run without an exception, the snapshot at its step pointer holds
    the squares of [Board], and the two turn flags are equal. *)
Theorem history_refines_simple (cs : list nat) :
  ∃ g e, History.clicks cs History.init = Ok g
         ∧ History.current g = Some e
         ∧ History.squares e = Simple.squares (Simple.clicks cs Simple.init)
         ∧ History.xIsNext (History.st g) = Simple.xIsNext (Simple.clicks cs Simple.init).
Proof.
  destruct (sim_clicks cs _ _ sim_init) as (g & Hrun & e & He & _ & Hsq & Hturn).
  by exists g, e.
Qed.

End variants.

(** * More on [handleClick] *)

Section clicks.
Import History.

Lemma get_set squares i v :
  array_index i → get (set squares i v) i = v.
Proof.
  intros Hidx. unfold get, set. case_decide as Hi.
  - by rewrite list_lookup_insert_eq.
  - rewrite decide_True by done. rewrite lookup_app_r by lia. rewrite lookup_app_r by (rewrite length_replicate; lia).
    rewrite length_replicate. by replace (_ - _ - _) with 0 by lia.
Qed.

Lemma slice_nil (h : list entry) p : take (p + 1) h = [] ↔ h = [].
Proof.
  replace (p + 1) with (S p) by lia. split; [|by intros ->].
  by destruct h.
Qed.

(** The two ways [handleClick] returns: the guard held and nothing changed,
    or the move was made. *)
Lemma handleClick_Ok i g g' :
  handleClick i g = Ok g' →
  ∃ cur, last (take (stepNumber (st g) + 1) (history (st g))) = Some cur
         ∧ ((blocked (squares cur) i = true ∧ g' = g)
            ∨ (blocked (squares cur) i = false
               ∧ g' = {| st := {| history := take (stepNumber (st g) + 1) (history (st g))
                                               ++ [ {| oid := next_oid g;
                                                       squares := set (squares cur) i (activePlayer (st g)) |} ];
                                  stepNumber := length (take (stepNumber (st g) + 1) (history (st g)));
                                  xIsNext := negb (xIsNext (st g)) |};
                         next_oid := S (next_oid g) |})).
Proof.
  unfold handleClick.
  destruct (last (take (stepNumber (st g) + 1) (history (st g)))) as [cur|]; [|done].
  intros Hclick. exists cur. split; [done|].
  destruct (blocked (squares cur) i); injection Hclick as <-; auto.
Qed.

Lemma handleClick_throws_empty i g :
  handleClick i g = TypeError → history (st g) = [].
Proof.
  unfold handleClick.
  destruct (last (take (stepNumber (st g) + 1) (history (st g)))) as [cur|] eqn:E.
  - by destruct (blocked (squares cur) i).
  - intros _. apply last_None in E. by eapply slice_nil.
Qed.

(** A second click on the same square changes nothing: the state after
    [handleClick(i)] is one that [handleClick(i)] leaves as it is.  This
    holds in every state, for every array index [i]. *)
Theorem handleClick_idempotent (i : nat) (g g' : game) :
  array_index i →
  handleClick i g = Ok g' → handleClick i g' = Ok g'.
Proof.
  intros Hidx Hclick.
  destruct (handleClick_Ok _ _ _ Hclick) as (cur & Hlast & [[Hb ->]|[Hb ->]]); [done|].
  unfold handleClick. cbn [st history stepNumber].
  rewrite take_ge by (rewrite length_app; simpl; lia).
  rewrite last_snoc. cbn [squares].
  unfold blocked at 1. rewrite get_set by done.
  destruct (activePlayer_mark (st g)) as [-> | ->]; simpl; by rewrite orb_true_r.
Qed.

Lemma handleClick_idempotent_witness :
  handleClick 4 (jumpTo 1 Scenario.three_moves)
  = Ok {| st := {| history := [ Entry 0 Scenario.empty;
                                Entry 1 [VX; VNull; VNull; VNull; VNull; VNull; VNull; VNull; VNull];
                                Entry 4 [VX; VNull; VNull; VNull; VO; VNull; VNull; VNull; VNull] ];
                   stepNumber := 2;
                   xIsNext := true |};
          next_oid := 5 |}
  ∧ handleClick 4
      {| st := {| history := [ Entry 0 Scenario.empty;
                               Entry 1 [VX; VNull; VNull; VNull; VNull; VNull; VNull; VNull; VNull];
                               Entry 4 [VX; VNull; VNull; VNull; VO; VNull; VNull; VNull; VNull] ];
                  stepNumber := 2;
                  xIsNext := true |};
         next_oid := 5 |}
    = Ok {| st := {| history := [ Entry 0 Scenario.empty;
                                  Entry 1 [VX; VNull; VNull; VNull; VNull; VNull; VNull; VNull; VNull];
                                  Entry 4 [VX; VNull; VNull; VNull; VO; VNull; VNull; VNull; VNull] ];
                     stepNumber := 2;
                     xIsNext := true |};
            next_oid := 5 |}.
Proof.
  split; [reflexivity|].
  apply (handleClick_idempotent 4 (jumpTo 1 Scenario.three_moves)).
  - unfold array_index. lia.
  - reflexivity.
Defined.

(** With the step pointer inside the history, [handleClick] leaves the
    snapshots up to and including the current one where they are, and either
    changes nothing or ends with the pointer on the last snapshot. *)
Theorem handleClick_keeps_past (i : nat) (g g' : game) :
  stepNumber (st g) < length (history (st g)) →
  handleClick i g = Ok g' →
  (∀ k, k ≤ stepNumber (st g) → history (st g') !! k = history (st g) !! k)
  ∧ (g' = g ∨ (stepNumber (st g') = stepNumber (st g) + 1
               ∧ length (history (st g')) = stepNumber (st g) + 2)).
Proof.
  intros Hp Hclick.
  destruct (handleClick_Ok _ _ _ Hclick) as (cur & Hlast & [[Hb ->]|[Hb ->]]); [by auto|].
  cbn [st history stepNumber]. rewrite slice_length by done. split.
  - intros k Hk. rewrite lookup_app_l by (rewrite slice_length by done; lia).
    rewrite lookup_take_lt by lia. done.
  - right. split; [done|]. rewrite length_app, slice_length by done. simpl. lia.
Qed.

Lemma handleClick_keeps_past_witness :
  ∃ g', handleClick 4 (jumpTo 1 Scenario.three_moves) = Ok g'
        ∧ (∀ k, k ≤ 1 → history (st g') !! k = history (st Scenario.three_moves) !! k)
        ∧ (g' = jumpTo 1 Scenario.three_moves
           ∨ (stepNumber (st g') = 1 + 1 ∧ length (history (st g')) = 1 + 2)).
Proof.
  eexists. split; [reflexivity|].
  apply (handleClick_keeps_past 4 (jumpTo 1 Scenario.three_moves)).
  - simpl. lia.
  - reflexivity.
Defined.

End clicks.

(** * The snapshots of a reachable history *)

Section snapshots.
Import History.

Lemma activePlayer_mover g : wf g → activePlayer (st g) = mover (stepNumber (st g)).
Proof. intros Hwf. unfold activePlayer, mover. by rewrite (wf_turn _ Hwf). Qed.

Lemma mover_mark k : is_mark (mover k).
Proof. unfold mover, is_mark. destruct (Nat.even k); auto. Qed.

Lemma reachable_placed g :
  reachable g →
  ∀ k e e', history (st g) !! k = Some e → history (st g) !! S k = Some e' →
            placed k (squares e) (squares e').
Proof.
  induction 1 as [|i g g' Hr IH Hi Hclick|step g Hr IH Hstep]; [by intros [|k]| |done].
  pose proof (reachable_wf _ Hr) as Hwf.
  destruct (wf_current _ Hwf) as (cur & Hcur & Hboard).
  rewrite (handleClick_current _ _ _ Hcur) in Hclick.
  destruct (blocked (squares cur) i) eqn:Hb; injection Hclick as <-; [done|].
  pose proof (wf_pointer _ Hwf) as Hp.
  set (p := stepNumber (st g)) in *. set (h := history (st g)) in *.
  assert (Hlen : length (take (p + 1) h) = p + 1) by (by apply slice_length).
  cbn [st history]. intros k e e' He He'.
  destruct (decide (S k < p + 1)) as [Hk|Hk].
  - rewrite lookup_app_l, lookup_take_lt in He by lia.
    rewrite lookup_app_l, lookup_take_lt in He' by lia.
    by eapply IH.
  - assert (k = p) as ->.
    { apply lookup_lt_Some in He'. rewrite length_app, Hlen in He'. simpl in He'. lia. }
    rewrite lookup_app_l, lookup_take_lt in He by lia.
    rewrite lookup_app_r, Hlen in He' by lia.
    replace (S p - (p + 1)) with 0 in He' by lia. simpl in He'.
    unfold current in Hcur. fold p h in Hcur. simplify_eq. cbn [squares].
    apply blocked_false_iff in Hb as [Hw Ht].
    assert (Hnull : squares cur !! i = Some VNull).
    { apply get_falsy_board; [done..|].
      destruct (truthy (get (squares cur) i)) eqn:E; [|done].
      destruct Ht. destruct (get_truthy _ _ E) as [Hl Hm]. by eexists. }
    split; [done|]. exists i. split; [done|]. split; [done|].
    rewrite set_in_range by (by eapply lookup_lt_Some).
    by rewrite activePlayer_mover.
Qed.

Lemma count_insert m m' squares i :
  squares !! i = Some VNull → m ≠ VNull →
  count m (<[i := m']> squares) = count m squares + (if decide (m' = m) then 1 else 0).
Proof.
  revert i. induction squares as [|w rest IH]; intros [|i] Hi Hm; simpl in *; try done.
  - simplify_eq. rewrite (decide_False (P := VNull = m)) by done. lia.
  - rewrite (IH i) by done. lia.
Qed.

Lemma count_replicate_null m n : m ≠ VNull → count m (replicate n VNull) = 0.
Proof. intros Hm. induction n; simpl; [done|]. by rewrite decide_False. Qed.

Lemma occupied_le_length squares : occupied squares ≤ length squares.
Proof. induction squares as [|v rest IH]; simpl; [done|]. destruct (truthy v); lia. Qed.

Lemma div2_succ k :
  Nat.div2 (S k) = Nat.div2 k + (if Nat.even k then 0 else 1).
Proof.
  assert (H : ∀ n, Nat.div2 (S n) = Nat.div2 n + (if Nat.even n then 0 else 1)
                   ∧ Nat.div2 (S (S n)) = Nat.div2 (S n) + (if Nat.even (S n) then 0 else 1)).
  { induction n as [|n [IH1 IH2]]; [done|]. split; [done|].
    change (Nat.div2 (S (S (S n)))) with (S (Nat.div2 (S n))).
    change (Nat.even (S (S n))) with (Nat.even n).
    change (Nat.div2 (S (S n))) with (S (Nat.div2 n)).
    rewrite IH1. lia. }
  apply H.
Qed.

Lemma mover_count k :
  Nat.div2 (S (S k)) = Nat.div2 (S k) + (if decide (mover k = VX) then 1 else 0)
  ∧ Nat.div2 (S k) = Nat.div2 k + (if decide (mover k = VO) then 1 else 0).
Proof.
  change (Nat.div2 (S (S k))) with (S (Nat.div2 k)).
  rewrite (div2_succ k). unfold mover. destruct (Nat.even k).
  - rewrite decide_True, decide_False by done. lia.
  - rewrite decide_False, decide_True by done. lia.
Qed.

Lemma reachable_counts g :
  reachable g →
  ∀ k e, history (st g) !! k = Some e →
         occupied (squares e) = k
         ∧ count VX (squares e) = Nat.div2 (S k)
         ∧ count VO (squares e) = Nat.div2 k.
Proof.
  intros Hr. pose proof (reachable_wf _ Hr) as Hwf.
  induction k as [|k IH]; intros e He.
  - destruct (wf_first _ Hwf) as (e0 & He0 & Hsq). simplify_eq. rewrite Hsq.
    rewrite occupied_replicate_null, !count_replicate_null by done. done.
  - destruct (lookup_lt_is_Some_2 (history (st g)) k) as [e0 He0].
    { apply lookup_lt_Some in He. lia. }
    destruct (IH _ He0) as (Hocc & Hx & Ho).
    destruct (reachable_placed _ Hr _ _ _ He0 He) as (_ & i & Hi & Hnull & Hsq).
    destruct (mover_count k) as [HX HO].
    split; [|split].
    + rewrite (wf_grow _ Hwf _ _ _ He0 He). by rewrite Hocc.
    + rewrite Hsq, count_insert, Hx by done. by rewrite HX.
    + rewrite Hsq, count_insert, Ho by done. by rewrite HO.
Qed.

Lemma not_winning_incomplete squares l :
  ¬ winning squares → l ∈ lines → incomplete squares l.
Proof.
  unfold winning, calculateWinner. intros Hw Hl.
  destruct (scan_cases squares lines) as [(k & m & Hf & Hs)|[Hall _]]; [|by apply Hall].
  destruct Hw. destruct Hf as (_ & _ & (Hm & _) & _).
  rewrite Hs. by apply is_mark_not_null.
Qed.

Lemma complete_after_placed k sq sq' l m :
  placed k sq sq' → l ∈ lines → complete sq' l m → m = mover k.
Proof.
  intros (Hw & i & Hi & Hnull & ->) Hl (Hm & Ha & Hb & Hc).
  pose proof (lookup_lt_Some _ _ _ Hnull) as Hlen.
  assert (Hat : ∀ j, <[i := mover k]> sq !! j = Some m → j ≠ i → sq !! j = Some m).
  { intros j Hj Hne. by rewrite list_lookup_insert_ne in Hj. }
  assert (Hnew : ∀ j, <[i := mover k]> sq !! j = Some m → j = i → m = mover k).
  { intros j Hj ->. rewrite list_lookup_insert_eq in Hj by done. by simplify_eq. }
  destruct (decide (l.1.1 = i)) as [E|Ea]; [exact (Hnew _ Ha E)|].
  destruct (decide (l.1.2 = i)) as [E|Eb]; [exact (Hnew _ Hb E)|].
  destruct (decide (l.2 = i)) as [E|Ec]; [exact (Hnew _ Hc E)|].
  destruct (not_winning_incomplete _ _ Hw Hl m).
  split; [done|]. split; [|split]; by apply Hat.
Qed.

Lemma complete_count squares l m :
  l ∈ lines → complete squares l m → 3 ≤ count m squares.
Proof.
  intros Hl (Hm & Ha & Hb & Hc). unfold lines in Hl.
  repeat (apply elem_of_cons in Hl as [->|Hl]); [..|by apply elem_of_nil in Hl];
    destruct squares as [|s0 [|s1 [|s2 [|s3 [|s4 [|s5 [|s6 [|s7 [|s8 rest]]]]]]]]];
    simplify_eq/=;
    repeat match goal with
           | |- context [decide (?x = ?x)] => rewrite (decide_True (P := x = x)) by done
           end; lia.
Qed.

End snapshots.

(** * What a reachable history looks like *)

Section histories.
Import History.

Lemma reachable_won : reachable Scenario.won.
Proof.
  apply (reachable_clicks [0; 4; 1; 3; 2] init); [apply reachable_init| |reflexivity].
  repeat constructor.
Defined.

(** In a reachable state the snapshot at index [k] of the history holds
    exactly [k] marks: the X's are [k/2] rounded up, the O's [k/2] rounded
    down. *)
Theorem snapshot_marks (g : game) (k : nat) (e : entry) :
  reachable g →
  history (st g) !! k = Some e →
  occupied (squares e) = k
  ∧ count VX (squares e) = (k + 1) / 2
  ∧ count VO (squares e) = k / 2.
Proof.
  intros Hr He. destruct (reachable_counts _ Hr _ _ He) as (Hocc & Hx & Ho).
  rewrite Nat.div2_div in Hx, Ho. replace (S k) with (k + 1) in Hx by lia. done.
Qed.

Lemma snapshot_marks_witness :
  occupied [VX; VO; VX; VNull; VNull; VNull; VNull; VNull; VNull] = 3
  ∧ count VX [VX; VO; VX; VNull; VNull; VNull; VNull; VNull; VNull] = (3 + 1) / 2
  ∧ count VO [VX; VO; VX; VNull; VNull; VNull; VNull; VNull; VNull] = 3 / 2.
Proof.
  apply (snapshot_marks Scenario.three_moves 3
           (Entry 3 [VX; VO; VX; VNull; VNull; VNull; VNull; VNull; VNull])).
  - apply reachable_three_moves.
  - reflexivity.
Defined.

(** A reachable history has at most ten snapshots, and the step pointer is
    at most 9. *)
Theorem history_bounded (g : game) :
  reachable g →
  length (history (st g)) ≤ 10 ∧ stepNumber (st g) ≤ 9.
Proof.
  intros Hr. pose proof (reachable_wf _ Hr) as Hwf.
  pose proof (wf_pointer _ Hwf) as Hp.
  assert (Hlen : length (history (st g)) ≤ 10); [|lia].
  destruct (length (history (st g))) as [|n] eqn:E; [lia|].
  destruct (lookup_lt_is_Some_2 (history (st g)) n) as [e He]; [lia|].
  destruct (reachable_counts _ Hr _ _ He) as (Hocc & _).
  assert (Hboard : board (squares e)).
  { eapply wf_boards; [done|]. by eapply list_elem_of_lookup_2. }
  destruct Hboard as [Hnine _].
  pose proof (occupied_le_length (squares e)). lia.
Qed.

Lemma history_bounded_witness :
  length (history (st Scenario.won)) ≤ 10 ∧ stepNumber (st Scenario.won) ≤ 9.
Proof. apply (history_bounded Scenario.won). apply reachable_won. Defined.

(** In a reachable history each snapshot comes from the one before it by one
    move: the snapshot at [k] has no winner, and the snapshot at [k + 1] is
    the same board with one empty square, of the nine, set to X when [k] is
    even and to O when [k] is odd. *)
Theorem history_step (g : game) (k : nat) (e e' : entry) :
  reachable g →
  history (st g) !! k = Some e →
  history (st g) !! S k = Some e' →
  ¬ winning (squares e)
  ∧ ∃ i, i < 9
         ∧ squares e !! i = Some VNull
         ∧ squares e' = <[i := if Nat.even k then VX else VO]> (squares e).
Proof. intros Hr He He'. exact (reachable_placed _ Hr _ _ _ He He'). Qed.

Lemma history_step_witness :
  ¬ winning [VX; VO; VNull; VNull; VNull; VNull; VNull; VNull; VNull]
  ∧ ∃ i, i < 9
         ∧ [VX; VO; VNull; VNull; VNull; VNull; VNull; VNull; VNull] !! i = Some VNull
         ∧ [VX; VO; VX; VNull; VNull; VNull; VNull; VNull; VNull]
           = <[i := if Nat.even 2 then VX else VO]>
               [VX; VO; VNull; VNull; VNull; VNull; VNull; VNull; VNull].
Proof.
  apply (history_step Scenario.three_moves 2
           (Entry 2 [VX; VO; VNull; VNull; VNull; VNull; VNull; VNull; VNull])
           (Entry 3 [VX; VO; VX; VNull; VNull; VNull; VNull; VNull; VNull])).
  - apply reachable_three_moves.
  - reflexivity.
  - reflexivity.
Defined.

Lemma placed_keeps_mark k sq sq' i m :
  placed k sq sq' → sq !! i = Some m → is_mark m → sq' !! i = Some m.
Proof.
  intros (_ & j & _ & Hnull & ->) Hi Hm.
  rewrite list_lookup_insert_ne; [done|].
  intros ->. rewrite Hnull in Hi. simplify_eq. by destruct Hm.
Qed.

(** A mark, once in a snapshot of a reachable history, is in every later
    snapshot at the same square. *)
Theorem marks_persist (g : game) (j k i : nat) (e e' : entry) (m : value) :
  reachable g →
  j ≤ k →
  history (st g) !! j = Some e →
  history (st g) !! k = Some e' →
  squares e !! i = Some m →
  is_mark m →
  squares e' !! i = Some m.
Proof.
  intros Hr Hjk He He' Hi Hm. revert e' He'.
  induction Hjk as [|k Hjk IH]; intros e' He'; [by simplify_eq|].
  destruct (lookup_lt_is_Some_2 (history (st g)) k) as [e0 He0].
  { apply lookup_lt_Some in He'. lia. }
  eapply placed_keeps_mark; [by eapply reachable_placed|by apply IH|done].
Qed.

Lemma marks_persist_witness :
  [VX; VO; VX; VNull; VNull; VNull; VNull; VNull; VNull] !! 0 = Some VX.
Proof.
  apply (marks_persist Scenario.three_moves 1 3 0
           (Entry 1 [VX; VNull; VNull; VNull; VNull; VNull; VNull; VNull; VNull])
           (Entry 3 [VX; VO; VX; VNull; VNull; VNull; VNull; VNull; VNull]) VX).
  - apply reachable_three_moves.
  - lia.
  - reflexivity.
  - reflexivity.
  - reflexivity.
  - left. reflexivity.
Defined.

Lemma complete_winning squares l m :
  l ∈ lines → complete squares l m → winning squares.
Proof.
  intros Hl Hc Hnull.
  unfold calculateWinner in Hnull.
  destruct (scan_cases squares lines) as [(k & m' & Hf & Hs)|[Hall _]].
  - destruct Hf as (_ & _ & (Hm' & _) & _). rewrite Hs in Hnull.
    by destruct (is_mark_not_null _ Hm').
  - by destruct (Hall l Hl m).
Qed.

(** When a snapshot of a reachable history has a complete line, it is the
    last snapshot of the history, at least five moves have been made, and
    the mark of the line is the mark of the player who made the last move:
    X after an odd number of moves, O after an even number.  So the two
    players never have a complete line each. *)
Theorem winner_moved_last (g : game) (k : nat) (e : entry) (l : line) (m : value) :
  reachable g →
  history (st g) !! k = Some e →
  l ∈ lines →
  complete (squares e) l m →
  S k = length (history (st g))
  ∧ 5 ≤ k
  ∧ m = (if Nat.even k then VO else VX).
Proof.
  intros Hr He Hl Hc. pose proof (reachable_wf _ Hr) as Hwf.
  pose proof (complete_winning _ _ _ Hl Hc) as Hw.
  assert (Hlast : S k = length (history (st g))).
  { pose proof (lookup_lt_Some _ _ _ He) as Hk.
    destruct (decide (S k = length (history (st g)))) as [|Hne]; [done|].
    destruct (lookup_lt_is_Some_2 (history (st g)) (S k)) as [e' He']; [lia|].
    by destruct (reachable_placed _ Hr _ _ _ He He') as [Hnw _]. }
  destruct k as [|k].
  { destruct (wf_first _ Hwf) as (e0 & He0 & Hsq). simplify_eq.
    destruct Hc as (Hm & Ha & _). rewrite Hsq in Ha.
    apply lookup_replicate_1 in Ha as [Heq _]. subst m. by destruct Hm. }
  destruct (lookup_lt_is_Some_2 (history (st g)) k) as [e0 He0].
  { apply lookup_lt_Some in He. lia. }
  pose proof (complete_after_placed _ _ _ _ _ (reachable_placed _ Hr _ _ _ He0 He) Hl Hc) as Hm.
  assert (Hmover : m = (if Nat.even (S k) then VO else VX)).
  { rewrite Hm. unfold mover. rewrite Nat.even_succ, <- Nat.negb_even.
    by destruct (Nat.even k). }
  split; [done|]. split; [|done].
  pose proof (complete_count _ _ _ Hl Hc) as Hthree.
  destruct (reachable_counts _ Hr _ _ He) as (_ & Hx & Ho).
  rewrite Hm in Hthree. unfold mover in Hthree.
  destruct (Nat.even k) eqn:E.
  - rewrite Hx in Hthree.
    destruct k as [|[|[|[|k]]]]; simpl in Hthree, E; try lia; done.
  - rewrite Ho in Hthree.
    destruct k as [|[|[|[|k]]]]; simpl in Hthree, E; try lia; done.
Qed.

Lemma winner_moved_last_witness :
  S 5 = length (history (st Scenario.won))
  ∧ 5 ≤ 5
  ∧ VX = (if Nat.even 5 then VO else VX).
Proof.
  apply (winner_moved_last Scenario.won 5
           (Entry 5 [VX; VX; VX; VO; VO; VNull; VNull; VNull; VNull]) (0, 1, 2) VX).
  - apply reachable_won.
  - reflexivity.
  - apply list_elem_of_here.
  - split; [by left|]. split; [reflexivity|]. split; reflexivity.
Defined.

End histories.

(** * What [Game] renders *)

Section rendering.
Import History View.

Lemma render_current g e :
  current g = Some e →
  render g =
    Ok {| grid := rows (squares e);
          status := if truthy (calculateWinner (squares e))
                    then "Winner " +:+ to_string (calculateWinner (squares e))
                    else "Next player: " +:+ (if xIsNext (st g) then "X" else "O");
          moves := imap (λ move _,
                           {| key := move; target := move;
                              desc := match move with
                                      | S _ => "Go to move #" +:+ pretty move
                                      | 0 => "Go to game start"
                                      end |}) (history (st g)) |}.
Proof. unfold current, render. by intros ->. Qed.

Lemma winner_mover g k e l m :
  reachable g → history (st g) !! k = Some e → l ∈ lines → complete (squares e) l m →
  ∃ k0, k = S k0 ∧ m = mover k0.
Proof.
  intros Hr He Hl Hc. destruct k as [|k].
  - destruct (wf_first _ (reachable_wf _ Hr)) as (e0 & He0 & Hsq). simplify_eq.
    destruct Hc as (Hm & Ha & _). rewrite Hsq in Ha.
    apply lookup_replicate_1 in Ha as [Heq _]. subst m. by destruct Hm.
  - destruct (lookup_lt_is_Some_2 (history (st g)) k) as [e0 He0].
    { apply lookup_lt_Some in He. lia. }
    exists k. split; [done|].
    by eapply complete_after_placed; [by eapply reachable_placed|..].
Qed.

(** In a reachable state [render] returns: it shows the squares of the
    snapshot at the step pointer; when that snapshot has a winner the status
    line names the player who made the last move (O at an even step, X at an
    odd one), and otherwise it names the player to move (X at an even step,
    O at an odd one). *)
Theorem render_status (g : game) :
  reachable g →
  ∃ v e, render g = Ok v
         ∧ current g = Some e
         ∧ grid v = rows (squares e)
         ∧ (winning (squares e) →
              status v = if Nat.even (stepNumber (st g)) then "Winner O" else "Winner X")
         ∧ (¬ winning (squares e) →
              status v = if Nat.even (stepNumber (st g))
                         then "Next player: X" else "Next player: O").
Proof.
  intros Hr. pose proof (reachable_wf _ Hr) as Hwf.
  destruct (wf_current _ Hwf) as (e & He & _).
  eexists _, e. split; [by apply render_current|]. split; [done|]. split; [done|].
  cbn [status]. split.
  - intros Hw. pose proof Hw as Ht. apply truthy_winner in Ht. rewrite Ht.
    destruct (scan_cases (squares e) lines) as [(k & m & Hf & Hs)|[_ Hs]];
      [|by destruct Hw].
    apply first_complete_elem in Hf as (l & Hl & Hc).
    destruct (winner_mover _ _ _ _ _ Hr He Hl Hc) as (k0 & Hk & Hm).
    unfold calculateWinner. rewrite Hs, Hm, Hk. unfold mover.
    rewrite Nat.even_succ, <- Nat.negb_even. by destruct (Nat.even k0).
  - intros Hw. destruct (truthy (calculateWinner (squares e))) eqn:Ht.
    { by apply truthy_winner in Ht. }
    rewrite (wf_turn _ Hwf). by destruct (Nat.even (stepNumber (st g))).
Qed.

Lemma render_status_witness :
  ∃ v e, render Scenario.won = Ok v
         ∧ current Scenario.won = Some e
         ∧ grid v = rows (squares e)
         ∧ (winning (squares e) →
              status v = if Nat.even 5 then "Winner O" else "Winner X")
         ∧ (¬ winning (squares e) →
              status v = if Nat.even 5 then "Next player: X" else "Next player: O").
Proof. apply (render_status Scenario.won). apply reachable_won. Defined.

Lemma desc_inj i j :
  match i with S _ => "Go to move #" +:+ pretty i | 0 => "Go to game start" end
  = match j with S _ => "Go to move #" +:+ pretty j | 0 => "Go to game start" end →
  i = j.
Proof.
  destruct i as [|i], j as [|j]; intros H.
  - done.
  - cbv [String.append] in H. discriminate H.
  - cbv [String.append] in H. discriminate H.
  - apply (inj (String.append _)) in H. by apply (inj pretty) in H.
Qed.

(** The move list has one item for each snapshot of the history, in order:
    the item at place [k] has key [k], its button jumps to step [k], and its
    text is "Go to game start" for [k = 0] and "Go to move #k" otherwise.  No
    two items have the same key or the same text. *)
Theorem render_moves (g : game) (v : view) :
  render g = Ok v →
  length (moves v) = length (history (st g))
  ∧ (∀ k b, moves v !! k = Some b →
            key b = k ∧ target b = k
            ∧ desc b = match k with
                       | S _ => "Go to move #" +:+ pretty k
                       | 0 => "Go to game start"
                       end)
  ∧ NoDup (key <$> moves v)
  ∧ NoDup (desc <$> moves v).
Proof.
  unfold render. destruct (history (st g) !! stepNumber (st g)) as [e|]; [|done].
  intros [= <-]. cbn [moves].
  assert (Hat : ∀ k b,
             imap (λ move _,
                     {| key := move; target := move;
                        desc := match move with
                                | S _ => "Go to move #" +:+ pretty move
                                | 0 => "Go to game start"
                                end |}) (history (st g)) !! k = Some b →
             key b = k ∧ target b = k
             ∧ desc b = match k with
                        | S _ => "Go to move #" +:+ pretty k
                        | 0 => "Go to game start"
                        end).
  { intros k b Hb. rewrite list_lookup_imap in Hb.
    destruct (history (st g) !! k); simpl in Hb; [|done]. by simplify_eq. }
  split; [by rewrite length_imap|]. split; [done|]. split.
  - apply NoDup_alt. intros i j x Hi Hj.
    apply list_lookup_fmap_Some_1 in Hi as (bi & -> & Hi).
    apply list_lookup_fmap_Some_1 in Hj as (bj & Hx & Hj).
    destruct (Hat _ _ Hi) as (Hki & _). destruct (Hat _ _ Hj) as (Hkj & _). congruence.
  - apply NoDup_alt. intros i j x Hi Hj.
    apply list_lookup_fmap_Some_1 in Hi as (bi & -> & Hi).
    apply list_lookup_fmap_Some_1 in Hj as (bj & Hx & Hj).
    destruct (Hat _ _ Hi) as (_ & _ & Hdi). destruct (Hat _ _ Hj) as (_ & _ & Hdj).
    apply desc_inj. congruence.
Qed.

Lemma render_moves_witness :
  ∃ v, render Scenario.one_move = Ok v
       ∧ length (moves v) = length (history (st Scenario.one_move))
       ∧ moves v = [ Move 0 0 "Go to game start"; Move 1 1 "Go to move #1" ]
       ∧ NoDup (key <$> moves v)
       ∧ NoDup (desc <$> moves v).
Proof.
  eexists. split; [reflexivity|].
  destruct (render_moves Scenario.one_move _ eq_refl) as (Hlen & _ & Hkeys & Hdescs).
  split; [exact Hlen|]. split; [reflexivity|]. split; [exact Hkeys|exact Hdescs].
Defined.

End rendering.

(** * What the user can do *)

Section interaction.
Import History View.

Lemma rows_clicks squares i :
  Click i ∈ (Click ∘ onClick <$> concat (rows squares)) ↔ i < 9.
Proof.
  simpl. split.
  - intros H. repeat (apply elem_of_cons in H as [[= ->]|H]; [lia|]).
    by apply elem_of_nil in H.
  - intros H. do 9 (destruct i as [|i]; [by repeat constructor|]). lia.
Qed.

Lemma rows_no_jump squares step :
  Jump step ∉ (Click ∘ onClick <$> concat (rows squares)).
Proof.
  simpl. intros H. repeat (apply elem_of_cons in H as [[=]|H]).
  by apply elem_of_nil in H.
Qed.

Lemma events_spec g v ev :
  render g = Ok v →
  ev ∈ events v ↔
    match ev with
    | Click i => i < 9
    | Jump step => step < length (history (st g))
    end.
Proof.
  unfold render. destruct (history (st g) !! stepNumber (st g)) as [e|]; [|done].
  intros [= <-]. unfold events. cbn [grid moves]. rewrite elem_of_app.
  destruct ev as [i|step].
  - rewrite rows_clicks. split; [|by left].
    intros [H|H]; [done|].
    apply list_elem_of_fmap in H as (b & [=] & _).
  - split.
    + intros [H|H]; [by apply rows_no_jump in H|].
      apply list_elem_of_fmap in H as (b & [= ->] & Hb).
      apply list_elem_of_lookup in Hb as (k & Hk).
      rewrite list_lookup_imap in Hk.
      destruct (history (st g) !! k) eqn:E; simpl in Hk; [|done].
      simplify_eq. simpl. by eapply lookup_lt_Some.
    + intros Hstep. right.
      destruct (lookup_lt_is_Some_2 _ _ Hstep) as [e' He'].
      apply list_elem_of_fmap. eexists. split; [|by eapply elem_of_lookup_imap_2].
      done.
Qed.

(** The states the user can reach through the rendered squares and move
    buttons are the reachable states: the squares send the indices 0 to 8
    and nothing else, the move buttons send the indices of the history and
    nothing else. *)
Theorem ui_reachable_iff (g : game) : ui_reachable g ↔ reachable g.
Proof.
  split.
  - induction 1 as [|g v ev g' _ IH Hv Hev Hfire]; [apply reachable_init|].
    apply (events_spec _ _ _ Hv) in Hev. destruct ev as [i|step]; simpl in Hfire.
    + by eapply reachable_click.
    + injection Hfire as <-. by apply reachable_jump.
  - induction 1 as [|i g g' Hr IH Hi Hclick|step g Hr IH Hstep]; [apply ui_init| |].
    + destruct (wf_current _ (reachable_wf _ Hr)) as (e & He & _).
      eapply (ui_event g _ (Click i)); [done|by apply render_current| |done].
      by eapply events_spec; [by apply render_current|].
    + destruct (wf_current _ (reachable_wf _ Hr)) as (e & He & _).
      eapply (ui_event g _ (Jump step)); [done|by apply render_current| |done].
      by eapply events_spec; [by apply render_current|].
Qed.

(** From a reachable state, every event of the rendered elements is handled
    without an exception. *)
Theorem events_handled (g : game) (v : view) (ev : event) :
  reachable g →
  render g = Ok v →
  ev ∈ events v →
  ∃ g', fire ev g = Ok g' ∧ reachable g' ∧ ∃ v', render g' = Ok v'.
Proof.
  intros Hr Hv Hev. apply (events_spec _ _ _ Hv) in Hev.
  assert (Hshow : ∀ g', reachable g' → ∃ v', render g' = Ok v').
  { intros g' Hr'. destruct (wf_current _ (reachable_wf _ Hr')) as (e & He & _).
    eexists. by apply render_current. }
  destruct ev as [i|step]; simpl.
  - destruct (handleClick i g) as [g'|] eqn:E.
    + exists g'. split; [done|].
      assert (reachable g') by (by eapply reachable_click). auto.
    + apply handleClick_throws_empty in E.
      pose proof (wf_pointer _ (reachable_wf _ Hr)) as Hp.
      rewrite E in Hp. simpl in Hp. lia.
  - eexists. split; [done|].
    assert (reachable (jumpTo step g)) by (by apply reachable_jump). auto.
Qed.

Lemma events_handled_witness :
  ∃ g', fire (Jump 1) Scenario.three_moves = Ok g'
        ∧ reachable g' ∧ ∃ v', render g' = Ok v'.
Proof.
  apply (events_handled Scenario.three_moves
           match render Scenario.three_moves with Ok v => v | TypeError => Build [] "" [] end
           (Jump 1)).
  - apply reachable_three_moves.
  - reflexivity.
  - unfold events. apply elem_of_app. right. simpl. repeat constructor.
Defined.

(** Jumping to any step of the history and back to the step one came from
    gives the state one started in, when that state is reachable. *)
Theorem jump_round_trip (k : nat) (g : game) :
  reachable g →
  k < length (history (st g)) →
  reachable (jumpTo k g)
  ∧ jumpTo (stepNumber (st g)) (jumpTo k g) = g.
Proof.
  intros Hr Hk. split; [by apply reachable_jump|].
  pose proof (wf_turn _ (reachable_wf _ Hr)) as Ht.
  pose proof (jumpTo_even (stepNumber (st g)) (jumpTo k g)) as He.
  destruct g as [[h p x] n]. unfold jumpTo in *. cbn [st history stepNumber xIsNext next_oid] in *.
  rewrite He. by rewrite Ht.
Qed.

Lemma jump_round_trip_witness :
  reachable (jumpTo 1 Scenario.three_moves)
  ∧ jumpTo (stepNumber (st Scenario.three_moves)) (jumpTo 1 Scenario.three_moves)
    = Scenario.three_moves.
Proof.
  apply (jump_round_trip 1 Scenario.three_moves).
  - apply reachable_three_moves.
  - simpl. lia.
Defined.

(** Undo and redo: after a click in a reachable state, jumping to the step
    one was at shows the snapshot and the turn of before the click, and
    jumping forward again gives back the state after the click. *)
Theorem undo_redo (i : nat) (g g' : game) :
  reachable g →
  handleClick i g = Ok g' →
  current (jumpTo (stepNumber (st g)) g') = current g
  ∧ xIsNext (st (jumpTo (stepNumber (st g)) g')) = xIsNext (st g)
  ∧ jumpTo (stepNumber (st g')) (jumpTo (stepNumber (st g)) g') = g'.
Proof.
  intros Hr Hclick. pose proof (reachable_wf _ Hr) as Hwf.
  pose proof (wf_pointer _ Hwf) as Hp. pose proof (wf_turn _ Hwf) as Ht.
  pose proof (turn_handleClick _ _ _ Hp Ht Hclick) as Ht'.
  split; [|split].
  - unfold current. cbn [jumpTo st history stepNumber].
    destruct (handleClick_Ok _ _ _ Hclick) as (cur & Hlast & [[Hb ->]|[Hb ->]]); [done|].
    cbn [st history]. rewrite lookup_app_l by (rewrite slice_length by done; lia).
    by rewrite lookup_take_lt by lia.
  - by rewrite jumpTo_even.
  - pose proof (jumpTo_even (stepNumber (st g')) (jumpTo (stepNumber (st g)) g')) as He.
    destruct g' as [[h' p' x'] n']. unfold jumpTo in *.
    cbn [st history stepNumber xIsNext next_oid] in *. rewrite He. by rewrite Ht'.
Qed.

Lemma undo_redo_witness :
  current (jumpTo 0 Scenario.one_move) = current init
  ∧ xIsNext (st (jumpTo 0 Scenario.one_move)) = xIsNext (st init)
  ∧ jumpTo (stepNumber (st Scenario.one_move)) (jumpTo 0 Scenario.one_move)
    = Scenario.one_move.
Proof.
  apply (undo_redo 0 init Scenario.one_move).
  - apply reachable_init.
  - reflexivity.
Defined.

End interaction.

(** * More on the simple variant *)

Section simple_board.

Lemma set_keeps_mark squares i j v m :
  truthy (get squares j) = false → squares !! i = Some m → is_mark m →
  set squares j v !! i = Some m.
Proof.
  intros Hfree Hi Hm. unfold set. case_decide.
  - rewrite list_lookup_insert_ne; [done|]. intros ->.
    unfold get in Hfree. rewrite Hi in Hfree. by destruct Hm as [-> | ->].
  - case_decide; [by apply lookup_app_l_Some|done].
Qed.

Lemma simple_handleClick_keeps_mark j s i m :
  Simple.squares s !! i = Some m → is_mark m →
  Simple.squares (Simple.handleClick j s) !! i = Some m.
Proof.
  intros Hi Hm. unfold Simple.handleClick.
  destruct (truthy (calculateWinner (Simple.squares s))); [done|].
  destruct (truthy (get (Simple.squares s) j)) eqn:E; [done|].
  simpl. by apply set_keeps_mark.
Qed.

(** In [Board], a square that holds a mark holds it after any further
    clicks, whatever their indices. *)
Theorem simple_marks_persist (cs : list nat) (s : Simple.state) (i : nat) (m : value) :
  Simple.squares s !! i = Some m →
  is_mark m →
  Simple.squares (Simple.clicks cs s) !! i = Some m.
Proof.
  intros Hi Hm. revert s Hi. induction cs as [|j cs IH]; intros s Hi; [done|].
  simpl. apply IH. by apply simple_handleClick_keeps_mark.
Qed.

Lemma simple_marks_persist_witness :
  Simple.squares
    (Simple.clicks [0; 1; 10]
       (Simple.State [VX; VNull; VNull; VNull; VNull; VNull; VNull; VNull; VNull] false))
    !! 0 = Some VX.
Proof.
  apply (simple_marks_persist [0; 1; 10]
           (Simple.State [VX; VNull; VNull; VNull; VNull; VNull; VNull; VNull; VNull] false)
           0 VX).
  - reflexivity.
  - left. reflexivity.
Defined.

(** In [Board], a second click on the same square changes nothing, in
    every state and for every array index. *)
Theorem simple_handleClick_idempotent (i : nat) (s : Simple.state) :
  array_index i →
  Simple.handleClick i (Simple.handleClick i s) = Simple.handleClick i s.
Proof.
  intros Hidx.
  remember (Simple.handleClick i s) as s' eqn:Hs'. unfold Simple.handleClick in Hs'.
  destruct (truthy (calculateWinner (Simple.squares s)) || truthy (get (Simple.squares s) i)) eqn:E;
    subst s'.
  - unfold Simple.handleClick. by rewrite E.
  - unfold Simple.handleClick. cbn [Simple.squares]. rewrite get_set by done.
    assert (Hm : truthy (if Simple.xIsNext s then VX else VO) = true)
      by (by destruct (Simple.xIsNext s)).
    by rewrite Hm, orb_true_r.
Qed.

Lemma simple_handleClick_idempotent_witness :
  Simple.handleClick 4 (Simple.handleClick 4 Simple.init)
  = Simple.handleClick 4 Simple.init.
Proof.
  apply (simple_handleClick_idempotent 4 Simple.init).
  unfold array_index. lia.
Defined.

(** After any clicks on the nine squares, starting from the constructor's
    state, [Board] holds a board of nine cells, each [null], ['X'] or ['O'];
    X moves next exactly when the number of marks is even, and the X's are
    as many as the O's or one more. *)
Theorem simple_invariant (cs : list nat) :
  Forall (λ i, i < 9) cs →
  board (Simple.squares (Simple.clicks cs Simple.init))
  ∧ Simple.xIsNext (Simple.clicks cs Simple.init)
    = Nat.even (occupied (Simple.squares (Simple.clicks cs Simple.init)))
  ∧ count VX (Simple.squares (Simple.clicks cs Simple.init))
    = count VO (Simple.squares (Simple.clicks cs Simple.init))
      + (if Simple.xIsNext (Simple.clicks cs Simple.init) then 0 else 1).
Proof.
  intros Hcs.
  destruct (sim_clicks cs _ _ sim_init) as (g & Hrun & e & He & _ & Hsq & Hturn).
  assert (Hr : History.reachable g).
  { by eapply reachable_clicks; [apply History.reachable_init|..]. }
  pose proof (reachable_wf _ Hr) as Hwf.
  destruct (reachable_counts _ Hr _ _ He) as (Hocc & Hx & Ho).
  rewrite <- Hsq, <- Hturn. split; [|split].
  - eapply History.wf_boards; [done|]. by eapply list_elem_of_lookup_2.
  - rewrite Hocc. apply (History.wf_turn _ Hwf).
  - rewrite Hx, Ho, (History.wf_turn _ Hwf). apply div2_succ.
Qed.

Lemma simple_invariant_witness :
  board (Simple.squares (Simple.clicks [0; 4; 0; 8] Simple.init))
  ∧ Simple.xIsNext (Simple.clicks [0; 4; 0; 8] Simple.init)
    = Nat.even (occupied (Simple.squares (Simple.clicks [0; 4; 0; 8] Simple.init)))
  ∧ count VX (Simple.squares (Simple.clicks [0; 4; 0; 8] Simple.init))
    = count VO (Simple.squares (Simple.clicks [0; 4; 0; 8] Simple.init))
      + (if Simple.xIsNext (Simple.clicks [0; 4; 0; 8] Simple.init) then 0 else 1).
Proof.
  apply (simple_invariant [0; 4; 0; 8]). repeat constructor.
Defined.

(** The two variants show the same thing: after the same clicks, with no
    jump, [Game] renders the rows of squares that [Board] renders; the status
    lines are equal while there is no winner, and when there is one they
    name the same player, as "Winner X" in [Game] and "Winner: X" in
    [Board]. *)
Theorem views_agree (cs : list nat) :
  ∃ g v, History.clicks cs History.init = Ok g
         ∧ View.render g = Ok v
         ∧ View.grid v = SimpleView.grid (SimpleView.render (Simple.clicks cs Simple.init))
         ∧ (¬ winning (Simple.squares (Simple.clicks cs Simple.init)) →
              View.status v
              = SimpleView.status (SimpleView.render (Simple.clicks cs Simple.init)))
         ∧ (winning (Simple.squares (Simple.clicks cs Simple.init)) →
              ∃ m, is_mark m
                   ∧ View.status v = "Winner " +:+ to_string m
                   ∧ SimpleView.status (SimpleView.render (Simple.clicks cs Simple.init))
                     = "Winner: " +:+ to_string m).
Proof.
  destruct (sim_clicks cs _ _ sim_init) as (g & Hrun & e & He & _ & Hsq & Hturn).
  eexists g, _. split; [done|]. split; [by apply render_current|].
  unfold SimpleView.render. cbn [View.grid View.status SimpleView.grid SimpleView.status].
  rewrite <- Hsq, <- Hturn. split; [done|]. split.
  - intros Hw. destruct (truthy (calculateWinner (History.squares e))) eqn:Ht; [|done].
    by apply truthy_winner in Ht.
  - intros Hw. pose proof Hw as Ht. apply truthy_winner in Ht. rewrite Ht.
    exists (calculateWinner (History.squares e)). split; [|done].
    destruct (calculateWinner (History.squares e)); simpl in Ht; try done; [by left|by right].
Qed.

End simple_board.

(** * More on [calculateWinner] *)

Section winner.

Lemma get_swap squares i : get (swap <$> squares) i = swap (get squares i).
Proof. unfold get. rewrite list_lookup_fmap. by destruct (squares !! i). Qed.

Lemma swap_inj v w : swap v = swap w ↔ v = w.
Proof. split; [|by intros ->]. by destruct v, w. Qed.

Lemma line_test_swap squares l :
  line_test (swap <$> squares) l = line_test squares l.
Proof.
  destruct l as [[a b] c]. unfold line_test. rewrite !get_swap.
  f_equal; [f_equal|].
  - by destruct (get squares a).
  - apply bool_decide_ext, swap_inj.
  - apply bool_decide_ext, swap_inj.
Qed.

(** Exchanging the two players on the board exchanges them in the result:
    [calculateWinner] treats X and O alike. *)
Theorem calculateWinner_swap (squares : list value) :
  calculateWinner (swap <$> squares) = swap (calculateWinner squares).
Proof.
  unfold calculateWinner. induction lines as [|l ls IH]; simpl; [done|].
  rewrite line_test_swap, get_swap, IH. by destruct (line_test squares l).
Qed.

Lemma complete_window squares l m :
  l ∈ lines →
  complete squares l m ↔ complete (take 9 (squares ++ replicate 9 VNull)) l m.
Proof.
  intros Hl.
  assert (Hat : ∀ i, i < 9 → is_mark m →
            squares !! i = Some m ↔ take 9 (squares ++ replicate 9 VNull) !! i = Some m).
  { intros i Hi Hm. rewrite lookup_take_lt by done.
    destruct (decide (i < length squares)) as [Hlt|Hge].
    - by rewrite lookup_app_l.
    - rewrite lookup_app_r, lookup_ge_None_2 by lia. split; [done|].
      intros H. apply lookup_replicate_1 in H as [Heq _]. subst m. by destruct Hm. }
  unfold lines in Hl.
  repeat (apply elem_of_cons in Hl as [->|Hl]); [..|by apply elem_of_nil in Hl];
    unfold complete; cbn [fst snd];
    split; intros (Hm & Ha & Hb & Hc); (split; [done|]);
    repeat split; apply Hat; (lia || done).
Qed.

Lemma scan_ext squares squares' ls :
  (∀ l m, l ∈ ls → complete squares l m ↔ complete squares' l m) →
  scan squares ls = scan squares' ls.
Proof.
  induction ls as [|l ls IH]; intros Hext; simpl; [done|].
  assert (Hl : ∀ m, complete squares l m ↔ complete squares' l m).
  { intros m. apply Hext. apply list_elem_of_here. }
  rewrite IH by (intros l' m Hl'; apply Hext; by apply list_elem_of_further).
  destruct (line_test squares l) eqn:E.
  - apply line_test_complete in E as [m Hm].
    assert (E' : line_test squares' l = true).
    { apply line_test_complete. exists m. by apply Hl. }
    rewrite E'. rewrite (complete_get _ _ _ Hm). symmetry. apply complete_get. by apply Hl.
  - destruct (line_test squares' l) eqn:E'; [|done].
    apply line_test_complete in E' as [m Hm]. apply Hl in Hm.
    assert (line_test squares l = true) by (apply line_test_complete; eauto). congruence.
Qed.

(** [calculateWinner] looks at the first nine squares only, and a square
    that is missing counts as an empty one: the result for any array is the
    result for the array cut, or filled up with [null], to nine squares. *)
Theorem calculateWinner_window (squares : list value) :
  calculateWinner squares = calculateWinner (take 9 (squares ++ replicate 9 VNull)).
Proof.
  unfold calculateWinner. apply scan_ext.
  intros l m Hl. by apply complete_window.
Qed.

End winner.

(** * A click outside the board *)

Section outside.
Import History.

Lemma rows_app squares extra :
  length squares = 9 → rows (squares ++ extra) = rows squares.
Proof.
  intros Hlen. unfold rows, renderSquare, get.
  by rewrite !lookup_app_l by lia.
Qed.

Lemma calculateWinner_app squares extra :
  length squares = 9 →
  calculateWinner (squares ++ extra) = calculateWinner squares.
Proof.
  intros Hlen. unfold calculateWinner. apply scan_ext. intros l m Hl.
  rewrite (complete_window (squares ++ extra)), (complete_window squares) by done.
  rewrite <- !(assoc_L (++)). by rewrite !take_app_length' by done.
Qed.

(** [handleClick] does not check that the index is one of the board.  On a
    snapshot of nine squares with no winner, a click at an array index from
    9 on is accepted: it uses up the turn (the pointer moves on, the flag
    flips) and makes a snapshot of [i + 1] squares with the mover's mark at
    [i], but the nine squares that are shown, and the winner, are those of
    before. *)
Theorem handleClick_past_the_end (i : nat) (g : game) (e : entry) :
  current g = Some e →
  length (squares e) = 9 →
  ¬ winning (squares e) →
  9 ≤ i →
  array_index i →
  ∃ g' e', handleClick i g = Ok g'
           ∧ current g' = Some e'
           ∧ stepNumber (st g') = stepNumber (st g) + 1
           ∧ xIsNext (st g') = negb (xIsNext (st g))
           ∧ length (squares e') = i + 1
           ∧ squares e' !! i = Some (if xIsNext (st g) then VX else VO)
           ∧ take 9 (squares e') = squares e
           ∧ rows (squares e') = rows (squares e)
           ∧ calculateWinner (squares e') = calculateWinner (squares e).
Proof.
  intros He Hlen Hw Hi Hidx. rewrite (handleClick_current _ _ _ He).
  assert (Hb : blocked (squares e) i = false).
  { apply blocked_false_iff. split; [done|].
    intros (m & _ & Hm). apply lookup_lt_Some in Hm. lia. }
  rewrite Hb. eexists _, _. split; [done|].
  pose proof (lookup_lt_Some _ _ _ He) as Hp.
  split.
  { unfold current. cbn [st history stepNumber].
    rewrite lookup_app_r by (rewrite slice_length by done; lia).
    rewrite slice_length by done. by replace (_ - _) with 0 by lia. }
  cbn [st stepNumber xIsNext squares]. split; [done|]. split; [done|].
  unfold set. rewrite decide_False, decide_True by (done || lia).
  split; [|split; [|split; [|split]]].
  - rewrite !length_app, length_replicate. simpl. lia.
  - rewrite lookup_app_r by lia. rewrite lookup_app_r by (rewrite length_replicate; lia).
    rewrite length_replicate. by replace (_ - _ - _) with 0 by lia.
  - by rewrite take_app_length'.
  - by apply rows_app.
  - by apply calculateWinner_app.
Qed.

Lemma handleClick_past_the_end_witness :
  ∃ g' e', handleClick 10 init = Ok g'
           ∧ current g' = Some e'
           ∧ stepNumber (st g') = 0 + 1
           ∧ xIsNext (st g') = negb true
           ∧ length (squares e') = 10 + 1
           ∧ squares e' !! 10 = Some VX
           ∧ take 9 (squares e') = replicate 9 VNull
           ∧ rows (squares e') = rows (replicate 9 VNull)
           ∧ calculateWinner (squares e') = calculateWinner (replicate 9 VNull).
Proof.
  apply (handleClick_past_the_end 10 init (Entry 0 (replicate 9 VNull))).
  - reflexivity.
  - reflexivity.
  - unfold winning. intros H. apply H. reflexivity.
  - lia.
  - unfold array_index. lia.
Defined.

End outside.
